(** * Alert ingestion pipeline of the Twistcasterlive weather server

    Shallow embedding of the alert pipeline of [server.js]: the TTL
    response cache, [parsePolygon], [pointInPolygon], [parseAtom] (with
    the geocode decoder) and the [/api/alerts] handler.

    Conventions of the embedding:
    - JavaScript strings are [string] (Stdlib); the text handled is 7-bit
      ASCII, as in the NWS feeds.  Characters of code 128 and above are
      treated as uncased and as non-whitespace.
    - JavaScript numbers are modelled as exact rationals [Q] (the value a
      decimal literal denotes, before rounding to binary64); [NaN] and
      the infinities that [parseFloat] can produce are explicit.
    - The regular expressions of the source are written as terms of a
      small regex syntax, interpreted by a backtracking matcher with the
      ECMAScript semantics (leftmost match, greedy / lazy quantifiers,
      quantifier iterations that match the empty string fail). *)

From Stdlib Require Import Ascii String QArith Qabs Qround Lqa.
From stdpp Require Import gmap strings list.

Open Scope string_scope.
Open Scope list_scope.
Open Scope nat_scope.

(* ------------------------------------------------------------------ *)
(** ** Characters and string primitives *)

Module JsStr.

Definition code (a : ascii) : nat := nat_of_ascii a.

(** [String.prototype.toUpperCase] on one character. *)
Definition up (a : ascii) : ascii :=
  let n := code a in
  if (97 <=? n) && (n <=? 122) then ascii_of_nat (n - 32) else a.

(** [String.prototype.toLowerCase] on one character. *)
Definition low (a : ascii) : ascii :=
  let n := code a in
  if (65 <=? n) && (n <=? 90) then ascii_of_nat (n + 32) else a.

(** The [WhiteSpace] and [LineTerminator] characters of ECMAScript
    ([\s] in a regex, and what [trim] removes): TAB, LF, VT, FF, CR, SP. *)
Definition is_space (a : ascii) : bool :=
  let n := code a in
  (9 <=? n) && (n <=? 13) || (n =? 32).

(** [LineTerminator]: what [.] does not match. *)
Definition is_line_term (a : ascii) : bool :=
  let n := code a in (n =? 10) || (n =? 13).

Definition is_digit (a : ascii) : bool :=
  let n := code a in (48 <=? n) && (n <=? 57).

Definition is_word (a : ascii) : bool :=
  let n := code a in
  (48 <=? n) && (n <=? 57) || (65 <=? n) && (n <=? 90)
  || (97 <=? n) && (n <=? 122) || (n =? 95).

Definition chars (s : string) : list ascii := list_ascii_of_string s.
Definition str (l : list ascii) : string := string_of_list_ascii l.

Definition toUpperCase (s : string) : string := str (map up (chars s)).
Definition toLowerCase (s : string) : string := str (map low (chars s)).

Fixpoint drop_spaces (l : list ascii) : list ascii :=
  match l with
  | a :: l' => if is_space a then drop_spaces l' else l
  | [] => []
  end.

(** [String.prototype.trim]. *)
Definition trim (s : string) : string :=
  str (rev (drop_spaces (rev (drop_spaces (chars s))))).

Fixpoint prefixb (p l : list ascii) : bool :=
  match p, l with
  | [], _ => true
  | a :: p', b :: l' => Ascii.eqb a b && prefixb p' l'
  | _ :: _, [] => false
  end.

(** [String.prototype.startsWith]. *)
Definition startsWith (s p : string) : bool := prefixb (chars p) (chars s).

Fixpoint infixb (p l : list ascii) : bool :=
  prefixb p l || match l with [] => false | _ :: l' => infixb p l' end.

(** [String.prototype.includes]. *)
Definition includes (s p : string) : bool := infixb (chars p) (chars s).

(** [s.slice(i, j)] for [0 <= i <= j]. *)
Definition slice (s : string) (i j : nat) : string :=
  str (firstn (j - i) (skipn i (chars s))).

(** [String.prototype.split] with a one-character string separator. *)
Fixpoint split_char_aux (sep : ascii) (l : list ascii) (cur : list ascii)
  : list string :=
  match l with
  | [] => [str (rev cur)]
  | a :: l' =>
      if Ascii.eqb a sep then str (rev cur) :: split_char_aux sep l' []
      else split_char_aux sep l' (a :: cur)
  end.

Definition split_char (s : string) (sep : ascii) : list string :=
  split_char_aux sep (chars s) [].

End JsStr.

(* ------------------------------------------------------------------ *)
(** ** Regular expressions *)

Module Regex.
Import JsStr.

(** Captures: group number, start and end offsets (latest first). *)
Definition caps := list (nat * (nat * nat)).

Inductive regex :=
| REps
| RChar (p : ascii -> bool)
| RCat (r1 r2 : regex)
| RAlt (r1 r2 : regex)
| RStar (greedy : bool) (r : regex)
| RCap (n : nat) (r : regex).

Section Matcher.
Variable s : list ascii.

(** Backtracking matcher in continuation-passing style.  [RStar] iterates
    with fuel bounded by the remaining input: an iteration must consume at
    least one character (ECMAScript rejects empty iterations), so the
    fuel [S (length s - i)] is never exhausted. *)
Fixpoint m (r : regex) (i : nat) (c : caps)
         (k : nat -> caps -> option (nat * caps)) {struct r}
  : option (nat * caps) :=
  match r with
  | REps => k i c
  | RChar p =>
      match nth_error s i with
      | Some a => if p a then k (S i) c else None
      | None => None
      end
  | RCat r1 r2 => m r1 i c (fun j c' => m r2 j c' k)
  | RAlt r1 r2 =>
      match m r1 i c k with
      | Some x => Some x
      | None => m r2 i c k
      end
  | RCap n r1 => m r1 i c (fun j c' => k j ((n, (i, j)) :: c'))
  | RStar g r1 =>
      (fix star (fuel : nat) (i : nat) (c : caps) {struct fuel}
         : option (nat * caps) :=
         match fuel with
         | 0 => k i c
         | S f =>
             let iter := m r1 i c
                 (fun j c' => if i <? j then star f j c' else None) in
             if g then
               match iter with Some x => Some x | None => k i c end
             else
               match k i c with Some x => Some x | None => iter end
         end) (S (length s - i)) i c
  end.

(** Match of [r] starting exactly at [i]: end offset and captures. *)
Definition exec_at (r : regex) (i : nat) : option (nat * caps) :=
  m r i [] (fun j c => Some (j, c)).

(** Leftmost match at or after [i]: start, end, captures. *)
Fixpoint search_from (r : regex) (fuel i : nat) : option (nat * nat * caps) :=
  match exec_at r i with
  | Some (j, c) => Some (i, j, c)
  | None =>
      match fuel with
      | 0 => None
      | S f => search_from r f (S i)
      end
  end.

Definition first_match (r : regex) (i : nat) : option (nat * nat * caps) :=
  if length s <? i then None else search_from r (length s - i) i.

(** All successive matches, as [RegExp.prototype[Symbol.match]] and
    [matchAll] with the [g] flag: after an empty match, [lastIndex]
    advances by one. *)
Fixpoint all_matches (r : regex) (fuel i : nat) : list (nat * nat * caps) :=
  match fuel with
  | 0 => []
  | S f =>
      match first_match r i with
      | None => []
      | Some (a, b, c) =>
          (a, b, c) :: all_matches r f (if a <? b then b else S b)
      end
  end.

End Matcher.

Definition sub (l : list ascii) (i j : nat) : string :=
  str (firstn (j - i) (skipn i l)).

Definition cap_str (l : list ascii) (c : caps) (n : nat) : option string :=
  match find (fun x => fst x =? n) c with
  | Some (_, (i, j)) => Some (sub l i j)
  | None => None
  end.

(** [s.match(re)] without [g]: captures of the first match. *)
Definition match_first (r : regex) (s : string) : option (nat * nat * caps) :=
  first_match (chars s) r 0.

(** [s.match(re)] with [g]: the matched substrings ([null] read as []). *)
Definition match_global (r : regex) (s : string) : list string :=
  let l := chars s in
  map (fun '(a, b, _) => sub l a b) (all_matches l r (S (length l)) 0).

(** [s.search(re)]: index of the first match, [-1] read as [None]. *)
Definition search (r : regex) (s : string) : option nat :=
  match first_match (chars s) r 0 with
  | Some (a, _, _) => Some a
  | None => None
  end.

(** [s.replace(re, f)] with [g]: each match replaced by [f] of its
    captures. *)
Definition replace_global (r : regex) (f : list ascii -> caps -> string)
  (s : string) : string :=
  let l := chars s in
  let ms := all_matches l r (S (length l)) 0 in
  let fix go (ms : list (nat * nat * caps)) (p : nat) : string :=
    match ms with
    | [] => sub l p (length l)
    | (a, b, c) :: ms' =>
        String.append (sub l p a) (String.append (f l c) (go ms' b))
    end in
  go ms 0.

(** [s.split(re)] (ECMAScript [RegExp.prototype[Symbol.split]], for a
    pattern without captures). *)
Fixpoint split_aux (l : list ascii) (r : regex) (fuel p q : nat)
  : list string :=
  match fuel with
  | 0 => [sub l p (length l)]
  | S f =>
      if length l <=? q then [sub l p (length l)]
      else
        match exec_at l r q with
        | Some (e, _) =>
            if e =? p then split_aux l r f p (S q)
            else sub l p q :: split_aux l r f e e
        | None => split_aux l r f p (S q)
        end
  end.

Definition split (r : regex) (s : string) : list string :=
  let l := chars s in
  match l with
  | [] => match exec_at l r 0 with Some _ => [] | None => [""] end
  | _ => split_aux l r (S (length l)) 0 0
  end.

(** Building blocks. [ci] is the [i] flag: characters compared after
    [toUpperCase], which for ASCII is ECMAScript's Canonicalize. *)
Definition chr (ci : bool) (a : ascii) : regex :=
  RChar (fun b => if ci then Ascii.eqb (up b) (up a) else Ascii.eqb b a).

Fixpoint lit_l (ci : bool) (l : list ascii) : regex :=
  match l with
  | [] => REps
  | [a] => chr ci a
  | a :: l' => RCat (chr ci a) (lit_l ci l')
  end.

Definition lit (ci : bool) (s : string) : regex := lit_l ci (chars s).

Fixpoint cat (rs : list regex) : regex :=
  match rs with
  | [] => REps
  | [r] => r
  | r :: rs' => RCat r (cat rs')
  end.

Definition star (r : regex) := RStar true r.
Definition lazy_star (r : regex) := RStar false r.
Definition plus (r : regex) := RCat r (RStar true r).
Definition opt (r : regex) := RAlt r REps.

Definition any : regex := RChar (fun _ => true).             (* [\s\S] *)
Definition dot : regex := RChar (fun a => negb (is_line_term a)). (* . *)
Definition space : regex := RChar is_space.                  (* \s *)
Definition word : regex := RChar is_word.                    (* [a-zA-Z0-9_] *)
Definition not_chr (a : ascii) : regex :=                    (* [^a] *)
  RChar (fun b => negb (Ascii.eqb (up b) (up a))).

End Regex.

(* ------------------------------------------------------------------ *)
(** ** Numbers: [parseFloat] and [Number.isFinite] *)

Module JsNum.
Import JsStr.

Inductive num :=
| NaN
| Inf (neg : bool)
| Fin (q : Q).

(** [Number.isFinite]. *)
Definition isFinite (x : num) : bool :=
  match x with Fin _ => true | _ => false end.

(** [a < b] on numbers. *)
Definition Qlt_bool (a b : Q) : bool := negb (Qle_bool b a).

(** A decimal literal whose magnitude reaches [2^1024 - 2^970] rounds to
    an infinity in binary64. *)
Definition overflow_bound : Q := inject_Z (2 ^ 1024 - 2 ^ 970).

Definition of_decimal (neg : bool) (mant e : Z) : num :=
  let q := if (0 <=? e)%Z then inject_Z (mant * 10 ^ e)
           else Qmake mant (Z.to_pos (10 ^ (- e))) in
  if Qle_bool overflow_bound q then Inf neg
  else Fin (if neg then Qopp q else q).

Fixpoint span_digits (l : list ascii) : list ascii * list ascii :=
  match l with
  | a :: l' =>
      if is_digit a then let (d, r) := span_digits l' in (a :: d, r)
      else ([], l)
  | [] => ([], [])
  end.

Definition digits_to_Z (d : list ascii) : Z :=
  fold_left (fun acc a => (acc * 10 + Z.of_nat (code a - 48))%Z) d 0%Z.

(** Optional [ExponentPart]: [e] or [E], an optional sign, and at least
    one digit; otherwise no exponent is consumed. *)
Definition exponent (l : list ascii) : Z :=
  match l with
  | a :: r =>
      if Ascii.eqb (low a) "e"%char then
        let '(sg, r') :=
          match r with
          | b :: r2 =>
              if Ascii.eqb b "+"%char then (1%Z, r2)
              else if Ascii.eqb b "-"%char then ((-1)%Z, r2)
              else (1%Z, r)
          | [] => (1%Z, r)
          end in
        let (d, _) := span_digits r' in
        match d with [] => 0%Z | _ => (sg * digits_to_Z d)%Z end
      else 0%Z
  | [] => 0%Z
  end.

(** The longest prefix that is a [StrUnsignedDecimalLiteral]. *)
Definition unsigned_decimal (neg : bool) (l : list ascii) : num :=
  if prefixb (chars "Infinity") l then Inf neg else
  let (d1, r1) := span_digits l in
  let '(d2, r2) :=
    match r1 with
    | a :: r => if Ascii.eqb a "."%char then span_digits r else ([], r1)
    | [] => ([], r1)
    end in
  match d1, d2 with
  | [], [] => NaN
  | _, _ =>
      of_decimal neg (digits_to_Z (d1 ++ d2))
        (exponent r2 - Z.of_nat (length d2))%Z
  end.

(** [parseFloat(s)]: leading white space skipped, an optional sign, then
    the longest decimal prefix; [NaN] when there is none. *)
Definition parseFloat (s : string) : num :=
  match drop_spaces (chars s) with
  | a :: r =>
      if Ascii.eqb a "-"%char then unsigned_decimal true r
      else if Ascii.eqb a "+"%char then unsigned_decimal false r
      else unsigned_decimal false (a :: r)
  | [] => NaN
  end.

End JsNum.

(* ------------------------------------------------------------------ *)
(** ** Polygon geometry *)

Module Geometry.
Import JsStr Regex JsNum.

(** A point [[lat, lon]]. *)
Definition point := (Q * Q)%type.

(** [arr.filter(Boolean)] on an array of points or [null]s. *)
Fixpoint filter_Boolean (l : list (option point)) : list point :=
  match l with
  | Some p :: l' => p :: filter_Boolean l'
  | None :: l' => filter_Boolean l'
  | [] => []
  end.

(** The callback of [.map] in [parsePolygon]: [const [la, lo] =
    p.split(',')]; a missing component is [undefined], which
    [parseFloat] reads as the string "undefined". *)
Definition parse_token (p : string) : option point :=
  let parts := split_char p ","%char in
  let la := default "undefined" (nth_error parts 0) in
  let lo := default "undefined" (nth_error parts 1) in
  match parseFloat la, parseFloat lo with
  | Fin lat, Fin lon => Some (lat, lon)
  | _, _ => None
  end.

(** [/\s+/] *)
Definition re_ws : regex := plus space.

(** [parsePolygon(str)]; [str] is a string or [null] ([None]). *)
Definition parsePolygon (s : option string) : option (list point) :=
  match s with
  | None => None
  | Some s =>
      if String.eqb s "" then None else
      let pts := filter_Boolean (map parse_token (split re_ws (trim s))) in
      if 3 <=? length pts then Some pts else None
  end.

(** [(yj - yi) || 1e-12]: a zero difference is falsy. *)
Definition nonzero_or_eps (d : Q) : Q :=
  if Qeq_bool d 0 then Qmake 1 (10 ^ 12) else d.

(** [pointInPolygon(lat, lon, poly)]: ray casting; at index [i] the
    previous vertex [j] is [poly.length - 1] for [i = 0], else [i - 1]. *)
Definition pointInPolygon (lat lon : Q) (poly : list point) : bool :=
  let n := length poly in
  if n <? 3 then false else
  fold_left
    (fun inside i =>
       let j := if i =? 0 then n - 1 else i - 1 in
       let '(yi, xi) := nth i poly (0, 0)%Q in
       let '(yj, xj) := nth j poly (0, 0)%Q in
       let intersect :=
         xorb (Qlt_bool lat yi) (Qlt_bool lat yj)
         && Qlt_bool lon ((xj - xi) * (lat - yi) / nonzero_or_eps (yj - yi) + xi)
       in if intersect then negb inside else inside)
    (seq 0 n) false.

End Geometry.

(* ------------------------------------------------------------------ *)
(** ** Atom entry parser and geocode decoder *)

Module Atom.
Import JsStr Regex JsNum Geometry.

Record AlertEntry := mkEntry {
  id : option string;
  title : option string;
  summary : option string;
  updated : option string;
  effective : option string;
  expires : option string;
  areaDesc : option string;
  severity : option string;
  event : option string;
  link : option string;
  ugc : list string;
  fips6 : list string;
  polygon : option (list point)
}.

Definition quote : ascii := ascii_of_nat 34.
Definition backslash : ascii := ascii_of_nat 92.

(** [(?:[a-zA-Z0-9_]+:)?] *)
Definition ns_prefix : regex := opt (RCat (plus word) (chr true ":"%char)).

(** [/<entry[\s\S]*?<\/entry>/gi] *)
Definition re_entry : regex :=
  cat [lit true "<entry"; lazy_star any; lit true "</entry>"].

(** [new RegExp(`<(?:[a-zA-Z0-9_]+:)?${tag}[^>]*>([\s\S]*?)<\/(?:[a-zA-Z0-9_]+:)?${tag}>`, 'i')] *)
Definition re_field (tag : string) : regex :=
  cat [chr true "<"%char; ns_prefix; lit true tag; star (not_chr ">"%char);
       chr true ">"%char; RCap 1 (lazy_star any);
       lit true "</"; ns_prefix; lit true tag; chr true ">"%char].

(** The regex literal [/<!\\[CDATA\\[(.*?)\\]\\]>/g].  In a regex literal
    [\\] is one literal backslash, so the source denotes: [<], [!], a
    backslash, one character of the class [[CDATA\\[(.*?)\\]] (that is, one
    of [C D A T \ [ ( . * ? )]), a backslash, [\]] and [>].  The pattern
    has no capturing group. *)
Definition cdata_class (a : ascii) : bool :=
  existsb (Ascii.eqb a)
    ["C"; "D"; "A"; "T"; backslash; "["; "("; "."; "*"; "?"; ")"]%char.

Definition re_cdata : regex :=
  cat [chr false "<"%char; chr false "!"%char; chr false backslash;
       RChar cdata_class; chr false backslash; chr false "]"%char;
       chr false ">"%char].

(** Replacement ['$1']: with no group 1 in the pattern, ECMAScript's
    GetSubstitution leaves ["$1"] as it is. *)
Definition cdata_replacement (l : list ascii) (c : caps) : string :=
  match cap_str l c 1 with Some v => v | None => "$1" end.

(** [get(tag)] of [parseAtom], on the entry block [b]. *)
Definition get (b : string) (tag : string) : option string :=
  match match_first (re_field tag) b with
  | Some (_, _, c) =>
      match cap_str (chars b) c 1 with
      | Some v => Some (trim (replace_global re_cdata cdata_replacement v))
      | None => None
      end
  | None => None
  end.

(** [/<link[^>]+href=Q([^Q]+)Q/i], where Q stands for the double quote
    character. *)
Definition re_link : regex :=
  cat [lit true "<link"; plus (not_chr ">"%char); lit true "href=";
       chr true quote; RCap 1 (plus (not_chr quote)); chr true quote].

Definition linkMatch (b : string) : option string :=
  match match_first re_link b with
  | Some (_, _, c) => cap_str (chars b) c 1
  | None => None
  end.

(** [/<(?:[a-zA-Z0-9_]+:)?geocode[\s\S]*?<\/(?:[a-zA-Z0-9_]+:)?geocode>/gi] *)
Definition re_geocode : regex :=
  cat [chr true "<"%char; ns_prefix; lit true "geocode"; lazy_star any;
       lit true "</"; ns_prefix; lit true "geocode>"].

(** [/<valueName>\s*NAME\s*<\/valueName>/i] for NAME = UGC, FIPS6. *)
Definition re_valueName_is (name : string) : regex :=
  cat [lit true "<valueName>"; star space; lit true name; star space;
       lit true "</valueName>"].

(** [/<valueName>/i] *)
Definition re_valueName : regex := lit true "<valueName>".

(** [/<value>([\s\S]*?)<\/value>/gi] *)
Definition re_value : regex :=
  cat [lit true "<value>"; RCap 1 (lazy_star any); lit true "</value>"].

(** [/[\s,;]+/g] *)
Definition re_sep : regex :=
  plus (RChar (fun a => is_space a || Ascii.eqb a ","%char
                        || Ascii.eqb a ";"%char)).

(** [[...seg.matchAll(re_value)].map(m => m[1])] *)
Definition value_contents (seg : string) : list string :=
  let l := chars seg in
  map (fun '(_, _, c) => default "" (cap_str l c 1))
      (all_matches l re_value (S (length l)) 0).

(** One group of a geocode block [g]: the [<value>] contents after the
    [<valueName>] equal to [name], each split on [re_sep]; [norm] is
    applied to each trimmed code ([toUpperCase] for UGC, nothing for
    FIPS6) and empty codes are skipped. *)
Definition codes_of (norm : string -> string) (name : string) (g : string)
  : list string :=
  match search (re_valueName_is name) g with
  | Some idx =>
      let after := slice g idx (String.length g) in
      let seg := match search re_valueName after with
                 | Some stop => if 0 <? stop then slice after 0 stop else after
                 | None => after
                 end in
      flat_map
        (fun v =>
           flat_map (fun code =>
                       let c := norm (trim code) in
                       if String.eqb c "" then [] else [c])
                    (split re_sep v))
        (value_contents seg)
  | None => []
  end.

Definition ugc_of_block (b : string) : list string :=
  flat_map (codes_of toUpperCase "UGC") (match_global re_geocode b).

Definition fips6_of_block (b : string) : list string :=
  flat_map (codes_of (fun c => c) "FIPS6") (match_global re_geocode b).

(** The JavaScript [a || b] on a string or [null]: [""] is falsy. *)
Definition js_or (a b : option string) : option string :=
  match a with
  | Some s => if String.eqb s "" then b else a
  | None => b
  end.

Definition parse_block (b : string) : AlertEntry :=
  {| id := get b "id";
     title := get b "title";
     summary := get b "summary";
     updated := js_or (js_or (get b "updated") (get b "sent")) None;
     effective := get b "effective";
     expires := get b "expires";
     areaDesc := get b "areaDesc";
     severity := get b "severity";
     event := get b "event";
     link := linkMatch b;
     ugc := ugc_of_block b;
     fips6 := fips6_of_block b;
     polygon := parsePolygon (get b "polygon") |}.

(** [parseAtom(xml)] *)
Definition parseAtom (xml : string) : list AlertEntry :=
  map parse_block (match_global re_entry xml).

End Atom.

(* ------------------------------------------------------------------ *)
(** ** Alert aggregator / filter *)

Module Aggregate.
Import JsStr JsNum Geometry Atom.

(** [byId]: a [Map] from id to entry; its iteration order is insertion
    order, so it is an association list appended at the end. *)
Definition byId_step (m : list (string * AlertEntry)) (it : AlertEntry)
  : list (string * AlertEntry) :=
  match id it with
  | Some k =>
      (* [it?.id && !byId.has(it.id)]: "" is falsy *)
      if String.eqb k "" then m
      else if existsb (fun p => String.eqb (fst p) k) m then m
      else m ++ [(k, it)]
  | None => m
  end.

Definition build_byId (merged : list AlertEntry) : list (string * AlertEntry) :=
  fold_left byId_step merged [].

(** [Array.from(byId.values())] *)
Definition dedup (merged : list AlertEntry) : list AlertEntry :=
  map snd (build_byId merged).

Definition fullName (state : string) : option string :=
  if String.eqb state "GA" then Some "GEORGIA"
  else if String.eqb state "AL" then Some "ALABAMA"
  else if String.eqb state "FL" then Some "FLORIDA"
  else if String.eqb state "SC" then Some "SOUTH CAROLINA"
  else if String.eqb state "NC" then Some "NORTH CAROLINA"
  else None.

(** The callback of [items.filter] in the state filter. *)
Definition state_match (state : string) (i : AlertEntry) : bool :=
  if existsb (fun code => startsWith code state) (ugc i) then true else
  let hay := toUpperCase (default "" (areaDesc i) ++ " " ++
                          default "" (summary i) ++ " " ++
                          default "" (title i)) in
  if includes hay (" " ++ state) || includes hay ("(" ++ state ++ ")")
     || includes hay (state ++ "-") || includes hay (state ++ ",")
  then true else
  match fullName state with
  | Some f => includes hay f
  | None => false
  end.

(** The state filter with its fallback: the new working list and
    [afterState]. *)
Definition state_step (state : string) (items : list AlertEntry)
  : list AlertEntry * nat :=
  if negb (String.eqb state "") && negb (String.eqb state "ALL") then
    let filtered := List.filter (state_match state) items in
    let afterState := length filtered in
    ((if afterState =? 0 then items else filtered), afterState)
  else (items, length items).

(** [polyHits] *)
Definition polyHits (lat lon : Q) (items : list AlertEntry) : list AlertEntry :=
  List.filter (fun i => match polygon i with
                   | Some p => pointInPolygon lat lon p
                   | None => false
                   end) items.

(** The polygon filter: the new working list and [afterPoly]. *)
Definition poly_step (lat lon : Q) (items : list AlertEntry)
  : list AlertEntry * nat :=
  let hits := polyHits lat lon items in
  let afterPoly := length hits in
  ((if 0 <? afterPoly then hits else items), afterPoly).

Record Debug := mkDebug {
  fetched : nat;
  afterState : nat;
  afterPoly : nat;
  feeds : nat
}.

Record AlertResult := mkResult {
  state : string;
  point_lat : Q;
  point_lon : Q;
  count : nat;
  items : list AlertEntry;
  fetchedAt : string;
  debug : Debug
}.

Definition ALERT_ATOM_URLS : list string :=
  ["https://api.weather.gov/alerts/active.atom?event=Tornado+Warning";
   "https://api.weather.gov/alerts/active.atom?event=Severe+Thunderstorm+Warning";
   "https://api.weather.gov/alerts/active.atom?event=Flash+Flood+Warning"].

(** The working list before the cap. *)
Definition working (st : string) (lat lon : Q) (merged : list AlertEntry)
  : list AlertEntry :=
  fst (poly_step lat lon (fst (state_step st (dedup merged)))).

(** From the merged entries to the response body ([fetchedAt] is
    [new Date().toISOString()]). *)
Definition aggregate (st : string) (lat lon : Q) (merged : list AlertEntry)
  (now_iso : string) : AlertResult :=
  let all := dedup merged in
  let fetchedCount := length all in
  let '(items1, afterS) := state_step st all in
  let '(items2, afterP) := poly_step lat lon items1 in
  let items3 := firstn 50 items2 in
  {| state := st; point_lat := lat; point_lon := lon;
     count := length items3; items := items3; fetchedAt := now_iso;
     debug := {| fetched := fetchedCount; afterState := afterS;
                 afterPoly := afterP; feeds := length ALERT_ATOM_URLS |} |}.

End Aggregate.

(* ------------------------------------------------------------------ *)
(** ** TTL response cache *)

Module Cache.

Record CacheEntry (A : Type) := mkCacheEntry {
  data : A;
  expiresAt : Z
}.
Arguments mkCacheEntry {A}.
Arguments data {A}.
Arguments expiresAt {A}.

(** [const cache = new Map()]: key -> { data, expiresAt }. *)
Abbreviation cache A := (gmap string (CacheEntry A)).

Section Ops.
Context {A : Type}.

(** The read of every handler: [const entry = cache.get(key);
    if (entry && entry.expiresAt > now) return entry.data]. *)
Definition cache_get (c : cache A) (key : string) (now : Z) : option A :=
  match c !! key with
  | Some e => if (now <? expiresAt e)%Z then Some (data e) else None
  | None => None
  end.

(** [cache.set(key, { data, expiresAt: now + TTL })] *)
Definition cache_set (c : cache A) (key : string) (v : A) (now ttl : Z)
  : cache A :=
  <[key := mkCacheEntry v (now + ttl)%Z]> c.

End Ops.

Definition DEFAULT_TTL_MS : Z := 60 * 1000.
Definition AIR_TTL_MS : Z := 10 * 60 * 1000.
Definition ALERTS_TTL_MS : Z := 2 * 60 * 1000.

(** The body of [/api/weather] and [/api/air] around the cache: [fetched]
    is the upstream result ([None] when the provider call throws). *)
Definition cached_endpoint {A} (c : cache A) (key : string) (now ttl : Z)
  (fetched : option A) : option A * cache A :=
  match cache_get c key now with
  | Some d => (Some d, c)
  | None =>
      match fetched with
      | Some d => (Some d, cache_set c key d now ttl)
      | None => (None, c)
      end
  end.

End Cache.

(* ------------------------------------------------------------------ *)
(** ** The [/api/alerts] handler *)

Module Handler.
Import JsStr JsNum Geometry Atom Aggregate Cache.

(** Query parameters, [undefined] read as [None]. *)
Record Query := mkQuery {
  q_state : option string;
  q_lat : option string;
  q_lon : option string;
  q_nocache : option string
}.

Definition DEFAULT_LAT : Q := Qmake 337490 10000.
Definition DEFAULT_LON : Q := Qmake (-843880) 10000.

Fixpoint digits_aux (fuel : nat) (n : N) (acc : string) : string :=
  match fuel with
  | 0 => acc
  | S f =>
      let acc' := String (ascii_of_N (48 + N.modulo n 10)) acc in
      if (n <? 10)%N then acc' else digits_aux f (N.div n 10) acc'
  end.

(** Decimal digits of a natural number. *)
Definition N_to_string (n : N) : string := digits_aux (S (N.size_nat n)) n "".

Section WithNumberToString.
(** [Number::toString], used by [toFixed] only for magnitudes of at least
    [1e21]. *)
Variable number_to_string : Q -> string.

(** [x.toFixed(2)]: [n] is the integer for which [n / 100 - |x|] is
    closest to zero, the larger one on a tie. *)
Definition toFixed2 (x : Q) : string :=
  if Qle_bool (inject_Z (10 ^ 21)) (Qabs x) then number_to_string x else
  let sign := if Qlt_bool x 0 then "-" else "" in
  let n := Z.to_N (Qfloor (Qabs x * 100 + Qmake 1 2)) in
  let frac := N.modulo n 100 in
  sign ++ N_to_string (N.div n 100) ++ "." ++
  (if (frac <? 10)%N then "0" else "") ++ N_to_string frac.

Definition query_state (q : Query) : string :=
  toUpperCase (default "GA" (js_or (q_state q) (Some "GA"))).

Definition coord (v : option string) (dflt : Q) : Q :=
  match parseFloat (default "undefined" v) with
  | Fin x => x
  | _ => dflt
  end.

Definition query_nocache (q : Query) : bool :=
  let v := toLowerCase (default "" (js_or (q_nocache q) (Some ""))) in
  String.eqb v "1" || String.eqb v "true".

(** [ALERT_ATOM_URLS.join('|')] *)
Definition evKey : string :=
  match ALERT_ATOM_URLS with
  | [] => ""
  | u :: us => fold_left (fun (acc v : string) => (acc ++ "|" ++ v)%string) us u
  end.

Definition alerts_key (st : string) (lat lon : Q) : string :=
  "alerts:" ++ st ++ ":" ++ toFixed2 lat ++ "," ++ toFixed2 lon ++ ":" ++ evKey.

Inductive response :=
| Json (d : AlertResult)
| ServerError.

(** One request to [/api/alerts]: the cache before and after, [now] is
    [Date.now()], [fetched] the bodies of the three feeds ([None] when one
    of the fetches fails or answers a non-success status) and [now_iso]
    the later [new Date().toISOString()]. *)
Definition alerts_handler (c : cache AlertResult) (q : Query) (now : Z)
  (fetched : option (list string)) (now_iso : string)
  : response * cache AlertResult :=
  let st := query_state q in
  let lat := coord (q_lat q) DEFAULT_LAT in
  let lon := coord (q_lon q) DEFAULT_LON in
  let nocache := query_nocache q in
  let key := alerts_key st lat lon in
  match (if negb nocache then cache_get c key now else None) with
  | Some d => (Json d, c)
  | None =>
      match fetched with
      | None => (ServerError, c)
      | Some xmls =>
          let d := aggregate st lat lon (flat_map parseAtom xmls) now_iso in
          (Json d, if negb nocache then cache_set c key d now ALERTS_TTL_MS
                   else c)
      end
  end.

End WithNumberToString.

End Handler.

(* ------------------------------------------------------------------ *)
(** ** Units and air-quality categories of the weather endpoints *)

Module Weather.
Import JsStr Atom.

Definition DEFAULT_UNITS : string := "us".

(** [resolveUnits(req)]: [(req.query.units || DEFAULT_UNITS).toLowerCase()],
    then ['imperial'] is read as ['us']. *)
Definition resolveUnits (q_units : option string) : string :=
  let u := toLowerCase (default DEFAULT_UNITS
                          (js_or q_units (Some DEFAULT_UNITS))) in
  if String.eqb u "imperial" then "us" else u.

(** [unitsFor(units)] of the Open-Meteo provider: temperature and speed
    labels. *)
Definition unitsFor (units : string) : string * string :=
  if String.eqb units "us" || String.eqb units "imperial" then ("°F", "mph")
  else if String.eqb units "metric" then ("°C", "km/h")
  else ("°C", "km/h").

(** The unit parameters [getWeather] adds to the forecast URL. *)
Definition unit_params (units : string) : list (string * string) :=
  if String.eqb units "us" || String.eqb units "imperial" then
    [("temperature_unit", "fahrenheit"); ("windspeed_unit", "mph");
     ("precipitation_unit", "inch")]
  else [].

(** [aqiCategory(aqi)] of the air-quality provider; [aqi == null] covers
    [null] and [undefined] ([None]). *)
Definition aqiCategory (aqi : option Q) : string * string :=
  match aqi with
  | None => ("Unknown", "#8a8f98")
  | Some a =>
      if Qle_bool a 50 then ("Good", "#2ecc71")
      else if Qle_bool a 100 then ("Moderate", "#f1c40f")
      else if Qle_bool a 150 then ("USG", "#e67e22")
      else if Qle_bool a 200 then ("Unhealthy", "#e74c3c")
      else if Qle_bool a 300 then ("Very Unhealthy", "#8e44ad")
      else ("Hazardous", "#7f1d1d")
  end.

End Weather.

(* ------------------------------------------------------------------ *)
(** ** Cookies and the authentication middleware *)

Module Cookies.
Import JsStr Atom.

Fixpoint index_of_aux (a : ascii) (l : list ascii) (i : nat) : option nat :=
  match l with
  | [] => None
  | b :: l' => if Ascii.eqb a b then Some i else index_of_aux a l' (S i)
  end.

(** [s.indexOf(c)] for a one-character [c]; [-1] read as [None]. *)
Definition index_of (s : string) (a : ascii) : option nat :=
  index_of_aux a (chars s) 0.

Section WithDecode.
(** [decodeURIComponent]: [None] when it throws a [URIError]. *)
Variable decodeURIComponent : string -> option string.

(** One step of the [reduce] of [parseCookies]; [None] is the exception
    thrown by [decodeURIComponent], which ends the reduction.  The
    accumulator is a plain object: assigning a string to its
    ["__proto__"] key goes to the prototype setter, which ignores
    non-objects. *)
Definition cookie_step (acc : option (gmap string string)) (cur : string)
  : option (gmap string string) :=
  match acc with
  | None => None
  | Some m =>
      match index_of cur "="%char with
      | Some i =>
          match decodeURIComponent (slice cur (S i) (String.length cur)) with
          | Some v =>
              let k := slice cur 0 i in
              Some (if String.eqb k "__proto__" then m else <[k := v]> m)
          | None => None
          end
      | None => Some m
      end
  end.

(** [parseCookies(req)] on [req.headers.cookie]. *)
Definition parseCookies (raw : option string) : option (gmap string string) :=
  let r := default "" (js_or raw (Some "")) in
  fold_left cookie_step
    (List.filter (fun v => negb (String.eqb v ""))
                 (map trim (split_char r ";"%char)))
    (Some ∅).

(** The middleware that attaches [req.user]: [verifyToken] returns the
    payload's [sub] field ([None] for a [null] payload or a missing
    [sub]); any exception leaves [req.user] unset. *)
Definition auth_user (verifyToken : string -> option string)
  (raw : option string) : option string :=
  match parseCookies raw with
  | None => None
  | Some cookies =>
      match cookies !! "auth" with
      | Some tok =>
          if String.eqb tok "" then None
          else match verifyToken tok with
               | Some sub => if String.eqb sub "" then None else Some sub
               | None => None
               end
      | None => None
      end
  end.

End WithDecode.

End Cookies.

(* ------------------------------------------------------------------ *)
(** ** The user store and [/api/auth/register] *)

Module Users.
Import JsStr Atom.

Record User := mkUser {
  username : string;
  displayName : string;
  passwordHash : string;
  salt : string;
  createdAt : string
}.

(** [/^[a-z0-9_]{3,20}$/.test(uname)]: between 3 and 20 characters, each
    a lower-case letter, a digit or [_]. *)
Definition uname_char (a : ascii) : bool :=
  let n := code a in
  (97 <=? n) && (n <=? 122) || (48 <=? n) && (n <=? 57) || (n =? 95).

Definition valid_uname (u : string) : bool :=
  (3 <=? String.length u) && (String.length u <=? 20)
  && forallb uname_char (chars u).

(** [readUsers()]: the content of [users.json], [None] when [JSON.parse]
    fails, which [readUsers] turns into []. *)
Definition readUsers (file : option (list User)) : list User :=
  default [] file.

Inductive reg_response :=
| Registered (u : User)
| RegError (status : nat).

Section WithHash.
(** [hashPassword(password, salt).hash]: PBKDF2 of the password. *)
Variable pbkdf2 : string -> string -> string.

(** [POST /api/auth/register] on the file [users.json] (the body fields
    [username], [password], [displayName] as strings or missing): [salt] is the
    fresh random salt and [now_iso] the creation time.  The new file
    content is returned with the response. *)
Definition register (file : option (list User)) (q_username q_password
  q_displayName : option string) (salt now_iso : string)
  : reg_response * option (list User) :=
  let uname := toLowerCase (trim (default "" (js_or q_username (Some "")))) in
  if negb (valid_uname uname) then (RegError 400, file) else
  let pw := default "" (js_or q_password (Some "")) in
  if String.length pw <? 6 then (RegError 400, file) else
  let users := readUsers file in
  if existsb (fun u => String.eqb (username u) uname) users
  then (RegError 409, file) else
  let user := {| username := uname;
                 displayName := default uname (js_or q_displayName (Some uname));
                 passwordHash := pbkdf2 pw salt;
                 salt := salt;
                 createdAt := now_iso |} in
  (Registered user, Some (users ++ [user])).

(** [Buffer.from(s, 'hex')]: the bytes a hex string denotes. *)
Variable hex_bytes : string -> list Byte.byte.

Fixpoint bytes_eqb (a b : list Byte.byte) : bool :=
  match a, b with
  | [], [] => true
  | x :: a', y :: b' => Byte.eqb x y && bytes_eqb a' b'
  | _, _ => false
  end.

(** [crypto.timingSafeEqual(a, b)]: [None] is the [RangeError] thrown
    when the buffers differ in length. *)
Definition timingSafeEqual (a b : list Byte.byte) : option bool :=
  if length a =? length b then Some (bytes_eqb a b) else None.

(** [verifyPassword(password, user)]; [None] when it throws. *)
Definition verifyPassword (password : string) (user : User) : option bool :=
  if String.eqb (salt user) "" || String.eqb (passwordHash user) "" then
    Some false
  else timingSafeEqual (hex_bytes (pbkdf2 password (salt user)))
                       (hex_bytes (passwordHash user)).

Inductive login_response :=
| LoggedIn (u : User)
| LoginError (status : nat).

(** [POST /api/auth/login] on the file [users.json]; an exception is
    answered with status 500. *)
Definition login (file : option (list User)) (q_username q_password : option string)
  : login_response :=
  let uname := toLowerCase (trim (default "" (js_or q_username (Some "")))) in
  let users := readUsers file in
  match List.find (fun u => String.eqb (username u) uname) users with
  | None => LoginError 401
  | Some user =>
      match verifyPassword (default "" (js_or q_password (Some ""))) user with
      | Some true => LoggedIn user
      | Some false => LoginError 401
      | None => LoginError 500
      end
  end.

End WithHash.

End Users.

(* ================================================================== *)
(** * Properties *)

Module GeometryFacts.
Import JsStr Regex JsNum Geometry.

Definition square : list point := [(0, 0); (0, 10); (10, 10); (10, 0)]%Q.

Lemma pointInPolygon_degenerate (lat lon : Q) (poly : list point) :
  length poly < 3 -> pointInPolygon lat lon poly = false.
Proof.
  intros H. unfold pointInPolygon.
  apply Nat.ltb_lt in H. rewrite H. reflexivity.
Qed.

(** C9: on the square [[0,0],[0,10],[10,10],[10,0]], (5,5) is inside,
    (20,20) is outside, the on-edge point (0,5) always gets the same
    answer ([true]); every list of fewer than 3 points gives [false]. *)
Theorem pointInPolygon_square_and_degenerate :
  pointInPolygon 5 5 square = true /\
  pointInPolygon 20 20 square = false /\
  pointInPolygon 0 5 square = true /\
  (forall (lat lon : Q) (poly : list point),
      length poly < 3 -> pointInPolygon lat lon poly = false).
Proof.
  split; [vm_compute; reflexivity|].
  split; [vm_compute; reflexivity|].
  split; [vm_compute; reflexivity|].
  exact pointInPolygon_degenerate.
Qed.

(** The whitespace-separated tokens of a polygon string. *)
Definition tokens (s : string) : list string := split re_ws (trim s).

Lemma parseFloat_undefined : parseFloat "undefined" = NaN.
Proof. reflexivity. Qed.

Lemma filter_Boolean_map_length {X} (f : X -> option point) (l : list X) :
  length (filter_Boolean (map f l)) <= length l.
Proof.
  induction l as [|x l IH]; simpl; [lia|].
  destruct (f x); simpl; lia.
Qed.

Lemma parse_token_Some (tok : string) (lat lon : Q) :
  parse_token tok = Some (lat, lon) <->
  exists la lo rest, split_char tok ","%char = la :: lo :: rest /\
                     parseFloat la = Fin lat /\ parseFloat lo = Fin lon.
Proof.
  unfold parse_token. split.
  - destruct (split_char tok ","%char) as [|la [|lo rest]]; simpl;
      rewrite ?parseFloat_undefined.
    + discriminate.
    + destruct (parseFloat la); discriminate.
    + destruct (parseFloat la) eqn:E1; try discriminate.
      destruct (parseFloat lo) eqn:E2; try discriminate.
      intros H; injection H as <- <-. exists la, lo, rest. auto.
  - intros (la & lo & rest & -> & E1 & E2). simpl.
    rewrite E1, E2. reflexivity.
Qed.

(** C10: [parsePolygon] splits the trimmed text on white space, keeps the
    tokens whose first two comma-separated parts both parse to finite
    numbers (in order), and returns them when at least 3 remain, else
    [null]; ["1,2 3,x 5,6"] gives [null]. *)
Theorem parsePolygon_drops_invalid_tokens :
  (forall s : string,
      parsePolygon (Some s) =
        (let pts := filter_Boolean (map parse_token (tokens s)) in
         if 3 <=? length pts then Some pts else None)) /\
  (forall (tok : string) (lat lon : Q),
      parse_token tok = Some (lat, lon) <->
      exists la lo rest, split_char tok ","%char = la :: lo :: rest /\
                         parseFloat la = Fin lat /\ parseFloat lo = Fin lon) /\
  parsePolygon (Some "1,2 3,x 5,6") = None.
Proof.
  split; [|split; [exact parse_token_Some | vm_compute; reflexivity]].
  intros s. unfold parsePolygon.
  destruct (String.eqb s "") eqn:E.
  - apply String.eqb_eq in E. subst s. vm_compute. reflexivity.
  - reflexivity.
Qed.

End GeometryFacts.

Module AtomFacts.
Import JsStr Regex JsNum Geometry Atom.

Definition cdata_block : string :=
  "<entry><summary><![CDATA[text]]></summary></entry>".

(** C4 (the source): on [<summary><![CDATA[text]]></summary>] the field
    extractor returns the CDATA section itself, wrapper included: the
    CDATA pattern, written with doubled backslashes in a regex literal,
    requires literal backslashes and never matches a CDATA section.  A
    field with no tag pair gives [null]. *)
Theorem get_cdata_not_stripped :
  get cdata_block "summary" = Some "<![CDATA[text]]>" /\
  get cdata_block "title" = None.
Proof. split; vm_compute; reflexivity. Qed.

Definition geocode_example : string :=
  "<entry><cap:geocode><valueName>UGC</valueName><value>GAZ001</value><value>GAZ002 GAZ003</value></cap:geocode></entry>".

Definition geocode_two_groups : string :=
  "<entry><cap:geocode><valueName>UGC</valueName><value>GAZ001</value><valueName>FIPS6</valueName><value>013001</value></cap:geocode></entry>".

Definition geocode_fips_first : string :=
  "<entry><cap:geocode><valueName>FIPS6</valueName><value>013001</value><valueName>UGC</valueName><value>GAZ001</value></cap:geocode></entry>".

(** C5 (the source): the geocode decoder gives [GAZ001 GAZ002 GAZ003] on
    the example of the spec, but the [<value>] segment of a group is not
    cut at the next [<valueName>]: the search for [<valueName>] in the
    slice finds the group's own [<valueName>] at offset 0, and [stop > 0]
    then keeps the whole rest of the block.  So the UGC list takes in the
    FIPS6 codes that follow it, and the FIPS6 list the UGC codes. *)
Theorem geocode_segment_not_cut :
  ugc_of_block geocode_example = ["GAZ001"; "GAZ002"; "GAZ003"] /\
  ugc_of_block geocode_two_groups = ["GAZ001"; "013001"] /\
  fips6_of_block geocode_fips_first = ["013001"; "GAZ001"].
Proof. split; [|split]; vm_compute; reflexivity. Qed.

End AtomFacts.

Module AggregateFacts.
Import JsStr JsNum Geometry Atom Aggregate GeometryFacts.

(** An entry with the given [id] and no other field. *)
Definition bare (i : option string) (area : option string) : AlertEntry :=
  mkEntry i None None None None None area None None None [] [] None.

(** Five entries of Illinois counties: none matches Georgia. *)
Definition five_il : list AlertEntry :=
  map (fun n => bare (Some ("urn:il:" ++ Handler.N_to_string (N.of_nat n))%string)
                     (Some "Cook, IL"))
      (seq 1 5).

(** C1: when the state filter (for a state other than "ALL") keeps no
    entry, the working list is the whole deduplicated list. *)
Theorem state_filter_fallback (st : string) (all : list AlertEntry) :
  st <> "ALL" ->
  List.filter (state_match st) all = [] ->
  fst (state_step st all) = all.
Proof.
  intros _ Hnone. unfold state_step.
  destruct (negb (String.eqb st "") && negb (String.eqb st "ALL"));
    simpl; [|reflexivity].
  rewrite Hnone. reflexivity.
Qed.

Lemma state_filter_fallback_witness :
  List.filter (state_match "GA") five_il = [] /\
  fst (state_step "GA" five_il) = five_il.
Proof.
  split; [vm_compute; reflexivity|].
  apply state_filter_fallback; [discriminate | vm_compute; reflexivity].
Defined.

(** Containment test of the claim: a present polygon of at least 3
    points that contains the point. *)
Definition contains (lat lon : Q) (e : AlertEntry) : bool :=
  match polygon e with
  | Some p => (3 <=? length p) && pointInPolygon lat lon p
  | None => false
  end.

Lemma polyHits_contains (lat lon : Q) (items : list AlertEntry) :
  polyHits lat lon items = List.filter (contains lat lon) items.
Proof.
  unfold polyHits. apply List.filter_ext. intros e.
  unfold contains. destruct (polygon e) as [p|]; [|reflexivity].
  destruct (3 <=? length p) eqn:E; [reflexivity|].
  apply Nat.leb_gt in E. apply pointInPolygon_degenerate. exact E.
Qed.

(** C2: the polygon filter keeps the entries whose polygon (present, at
    least 3 points) contains the point when there is one, and otherwise
    leaves the working list as it is. *)
Theorem poly_filter_precedence (lat lon : Q) (items : list AlertEntry) :
  fst (poly_step lat lon items) =
  match List.filter (contains lat lon) items with
  | [] => items
  | hits => hits
  end.
Proof.
  unfold poly_step. rewrite polyHits_contains.
  destruct (List.filter (contains lat lon) items) as [|h t]; reflexivity.
Qed.

(** Entries with ids "1" .. "80" and no text. *)
Definition entries80 : list AlertEntry :=
  map (fun n => bare (Some (Handler.N_to_string (N.of_nat n))) None)
      (seq 1 80).

Lemma aggregate_items_firstn (st : string) (lat lon : Q)
  (merged : list AlertEntry) (now_iso : string) :
  items (aggregate st lat lon merged now_iso)
    = firstn 50 (working st lat lon merged) /\
  count (aggregate st lat lon merged now_iso)
    = length (items (aggregate st lat lon merged now_iso)).
Proof.
  unfold aggregate, working.
  destruct (state_step st (dedup merged)) as [items1 afterS]; simpl.
  destruct (poly_step lat lon items1) as [items2 afterP]; simpl.
  split; reflexivity.
Qed.

(** C7: the emitted items are the first 50 entries of the working list,
    in order; there are at most 50 and [count] is their number; 80
    distinct entries give 50. *)
Theorem aggregate_cap (st : string) (lat lon : Q)
  (merged : list AlertEntry) (now_iso : string) :
  let r := aggregate st lat lon merged now_iso in
  items r = firstn 50 (working st lat lon merged) /\
  length (items r) <= 50 /\
  count r = length (items r) /\
  count r = Nat.min 50 (length (working st lat lon merged)) /\
  count (aggregate "GA" Handler.DEFAULT_LAT Handler.DEFAULT_LON entries80
                now_iso) = 50.
Proof.
  destruct (aggregate_items_firstn st lat lon merged now_iso) as [H1 H2].
  cbv zeta. rewrite H2, H1, length_firstn.
  split; [reflexivity|]. split; [lia|]. split; [reflexivity|].
  split; [reflexivity|].
  vm_compute. reflexivity.
Qed.

(** [x] carries the id [k]. *)
Definition has_id (k : string) (x : AlertEntry) : bool :=
  match id x with Some k' => String.eqb k' k | None => false end.

Lemma has_id_Some (k k' : string) (x : AlertEntry) :
  id x = Some k' -> has_id k x = String.eqb k' k.
Proof. unfold has_id. intros ->. reflexivity. Qed.

Lemma has_id_None (k : string) (x : AlertEntry) :
  id x = None -> has_id k x = false.
Proof. unfold has_id. intros ->. reflexivity. Qed.

(** Invariant of [byId]: each key is the non-empty id of its entry. *)
Definition key_ok (p : string * AlertEntry) : Prop :=
  id (snd p) = Some (fst p) /\ fst p <> "".

Lemma byId_step_key_ok (m : list (string * AlertEntry)) (x : AlertEntry) :
  Forall key_ok m -> Forall key_ok (byId_step m x).
Proof.
  intros Hm. unfold byId_step.
  destruct (id x) as [k|] eqn:Ex; [|exact Hm].
  destruct (String.eqb k "") eqn:E0; [exact Hm|].
  destruct (existsb _ m); [exact Hm|].
  apply Forall_app. split; [exact Hm|].
  constructor; [|constructor].
  split; [exact Ex|]. simpl. intros ->. discriminate.
Qed.

Lemma fold_byId_key_ok (l : list AlertEntry) (m : list (string * AlertEntry)) :
  Forall key_ok m -> Forall key_ok (fold_left byId_step l m).
Proof.
  revert m. induction l as [|x l IH]; intros m Hm; simpl; [exact Hm|].
  apply IH, byId_step_key_ok, Hm.
Qed.

Lemma filter_has_id_keys (k : string) (m : list (string * AlertEntry)) :
  Forall key_ok m ->
  List.filter (has_id k) (map snd m)
  = map snd (List.filter (fun p => String.eqb (fst p) k) m).
Proof.
  induction m as [|[k' e] m IH]; intros Hm; [reflexivity|].
  inversion Hm as [|? ? [Hid _] Hm']; subst. simpl in *.
  unfold has_id at 1. rewrite Hid.
  destruct (String.eqb k' k); simpl; rewrite IH by exact Hm'; reflexivity.
Qed.

Lemma existsb_filter_nil {X} (f : X -> bool) (l : list X) :
  existsb f l = false <-> List.filter f l = [].
Proof.
  induction l as [|x l IH]; simpl; [tauto|].
  destruct (f x); simpl; [split; discriminate | exact IH].
Qed.

Lemma has_id_empty_key_ok (m : list (string * AlertEntry)) :
  Forall key_ok m -> List.filter (has_id "") (map snd m) = [].
Proof.
  intros Hm. rewrite filter_has_id_keys by exact Hm.
  induction Hm as [|[k e] m [_ Hk] _ IH]; [reflexivity|]. simpl in *.
  destruct (String.eqb k "") eqn:E; [apply String.eqb_eq in E; congruence|].
  exact IH.
Qed.

(** The entries with id [k] that [byId] ends with: those it started with,
    or else the first entry with id [k] in the rest of the input. *)
Lemma fold_byId_filter (k : string) (l : list AlertEntry)
  (m : list (string * AlertEntry)) :
  k <> "" -> Forall key_ok m ->
  List.filter (has_id k) (map snd (fold_left byId_step l m)) =
  match List.filter (has_id k) (map snd m) with
  | [] => match List.find (has_id k) l with Some e => [e] | None => [] end
  | f => f
  end.
Proof.
  intros Hk. revert m.
  induction l as [|x l IH]; intros m Hm; simpl.
  - destruct (List.filter (has_id k) (map snd m)); reflexivity.
  - rewrite IH by (apply byId_step_key_ok, Hm).
    unfold byId_step.
    destruct (id x) as [k'|] eqn:Ex;
      [rewrite (has_id_Some k k' x Ex) | rewrite (has_id_None k x Ex);
                                         reflexivity].
    destruct (String.eqb k' "") eqn:E0.
    + apply String.eqb_eq in E0. subst k'.
      destruct (String.eqb "" k) eqn:E; [|reflexivity].
      apply String.eqb_eq in E. congruence.
    + destruct (existsb (fun p => String.eqb (fst p) k') m) eqn:Eex.
      * destruct (String.eqb k' k) eqn:Ekk; [|reflexivity].
        apply String.eqb_eq in Ekk. subst k'.
        rewrite filter_has_id_keys by exact Hm.
        destruct (List.filter (fun p => String.eqb (fst p) k) m) eqn:Ef.
        -- apply existsb_filter_nil in Ef. congruence.
        -- reflexivity.
      * rewrite map_app, List.filter_app. simpl.
        rewrite (has_id_Some k k' x Ex).
        destruct (String.eqb k' k) eqn:Ekk.
        -- apply String.eqb_eq in Ekk. subst k'.
           rewrite filter_has_id_keys by exact Hm.
           apply existsb_filter_nil in Eex. rewrite Eex. reflexivity.
        -- rewrite app_nil_r. reflexivity.
Qed.

Lemma fold_byId_sublist (l : list AlertEntry) (m : list (string * AlertEntry)) :
  exists r, fold_left byId_step l m = m ++ r /\ map snd r `sublist_of` l.
Proof.
  revert m. induction l as [|x l IH]; intros m; simpl.
  - exists []. rewrite app_nil_r. split; [reflexivity | constructor].
  - unfold byId_step at 2.
    destruct (id x) as [k|];
      [destruct (String.eqb k ""); [|destruct (existsb _ m)]|].
    all: try (destruct (IH m) as (r & Hr & Hs);
              exists r; split; [exact Hr | apply sublist_cons, Hs]).
    destruct (IH (m ++ [(k, x)])) as (r & Hr & Hs).
    exists ((k, x) :: r). rewrite Hr, <- app_assoc. split; [reflexivity|].
    simpl. apply sublist_skip, Hs.
Qed.

(** C6 (as the source has it): [dedup] keeps, for each non-empty id, the
    first entry with that id in merge order and nothing else; entries
    whose id is [null], missing or the empty string are dropped; the
    result keeps the merge order. *)
Theorem dedup_first_occurrence (merged : list AlertEntry) :
  (forall k : string,
      List.filter (has_id k) (dedup merged) =
      if String.eqb k "" then []
      else match List.find (has_id k) merged with
           | Some e => [e]
           | None => []
           end) /\
  Forall (fun x => exists k, id x = Some k /\ k <> "") (dedup merged) /\
  dedup merged `sublist_of` merged.
Proof.
  assert (Hinv : Forall key_ok (build_byId merged))
    by (apply fold_byId_key_ok; constructor).
  split; [|split].
  - intros k. unfold dedup.
    destruct (String.eqb k "") eqn:E.
    + apply String.eqb_eq in E. subst k.
      apply has_id_empty_key_ok, Hinv.
    + apply String.eqb_neq in E. unfold build_byId.
      rewrite fold_byId_filter by (exact E || constructor). reflexivity.
  - unfold dedup. apply Forall_map.
    eapply Forall_impl; [exact Hinv|].
    intros [k e] [Hid Hk]. exists k. split; assumption.
  - unfold dedup, build_byId.
    destruct (fold_byId_sublist merged []) as (r & -> & Hs). exact Hs.
Qed.

Definition two_feeds_empty_id : list string :=
  ["<feed><entry><id></id><title>Flood Warning</title></entry></feed>";
   "<feed><entry><id></id><title>Flood Warning</title></entry></feed>"].

(** C6 as stated fails: an entry whose id is the empty string is not
    [null], yet [it?.id] is falsy and the entry is dropped; two feeds that
    share the id "" give no entry rather than exactly one. *)
Lemma dedup_empty_id_dropped :
  map id (flat_map parseAtom two_feeds_empty_id) = [Some ""; Some ""] /\
  dedup (flat_map parseAtom two_feeds_empty_id) = [].
Proof. split; vm_compute; reflexivity. Qed.

End AggregateFacts.

Module CacheFacts.
Import Cache.

(** C8 as stated fails at the boundary: with [expiresAt = 1000] a read
    at [now = 1000] is a miss ([entry.expiresAt > now] is false), although
    [now > expiresAt] does not hold. *)
Lemma cache_miss_at_expiry :
  cache_set (∅ : cache nat) "k" 7 0 1000 !! "k"
    = Some (mkCacheEntry 7 1000) /\
  cache_get (cache_set (∅ : cache nat) "k" 7 0 1000) "k" 1000 = None.
Proof. split; reflexivity. Qed.

(** C8 (as the source has it): a read misses exactly when the key is
    absent or [now >= expiresAt]; otherwise it returns the stored value.
    After [set(k, v, ttl)] at time [t], a read of [k] at [t'] returns [v]
    when [t' < t + ttl] and misses otherwise. *)
Theorem cache_get_spec {A : Type} (c : cache A) (key : string) (now : Z) :
  (cache_get c key now = None <->
   c !! key = None \/ exists e, c !! key = Some e /\ (expiresAt e <= now)%Z) /\
  (forall e, c !! key = Some e -> (now < expiresAt e)%Z ->
             cache_get c key now = Some (data e)) /\
  (forall (v : A) (t ttl t' : Z),
      cache_get (cache_set c key v t ttl) key t' =
      if (t' <? t + ttl)%Z then Some v else None).
Proof.
  split; [|split].
  - unfold cache_get. destruct (c !! key) as [e|] eqn:E.
    + destruct (now <? expiresAt e)%Z eqn:Hlt.
      * apply Z.ltb_lt in Hlt. split; [discriminate|].
        intros [H | (e' & H & Hle)]; [discriminate|].
        injection H as <-. lia.
      * apply Z.ltb_ge in Hlt. split; [intros _; right; eauto | reflexivity].
    + split; [intros _; left; reflexivity | reflexivity].
  - intros e He Hlt. unfold cache_get. rewrite He.
    apply Z.ltb_lt in Hlt. rewrite Hlt. reflexivity.
  - intros v t ttl t'. unfold cache_get, cache_set.
    rewrite lookup_insert_eq. reflexivity.
Qed.

End CacheFacts.

Module HandlerFacts.
Import JsStr Atom Aggregate Cache Handler.

Definition empty_feeds : list string := [""; ""; ""].

(** C3 (as the source has it): with [nocache] the handler neither reads
    nor writes the cache: the cache is unchanged and the response does
    not depend on it. *)
Theorem alerts_nocache_skips_cache (number_to_string : Q -> string)
  (c : cache AlertResult) (q : Query) (now : Z)
  (fetched : option (list string)) (now_iso : string) :
  query_nocache q = true ->
  snd (alerts_handler number_to_string c q now fetched now_iso) = c /\
  fst (alerts_handler number_to_string c q now fetched now_iso)
  = fst (alerts_handler number_to_string ∅ q now fetched now_iso).
Proof.
  intros Hnc. unfold alerts_handler. cbv zeta. rewrite Hnc. simpl.
  destruct fetched; split; reflexivity.
Qed.

Lemma alerts_nocache_skips_cache_witness :
  query_nocache (mkQuery (Some "GA") None None (Some "true")) = true /\
  snd (alerts_handler (fun _ => "") ∅
         (mkQuery (Some "GA") None None (Some "true")) 0
         (Some empty_feeds) "t0") = ∅.
Proof.
  split; [reflexivity|].
  exact (proj1 (alerts_nocache_skips_cache (fun _ => "") ∅
                  (mkQuery (Some "GA") None None (Some "true")) 0
                  (Some empty_feeds) "t0" eq_refl)).
Defined.

(** C3 as stated fails: a request with [nocache=1] leaves the cache empty,
    so the next request without [nocache], well within the TTL, is not
    served the fresh result: here the upstream fetch then fails and the
    answer is an error. *)
Lemma nocache_result_not_cached :
  let q_nc := mkQuery (Some "GA") None None (Some "1") in
  let q := mkQuery (Some "GA") None None None in
  let '(r1, c1) := alerts_handler (fun _ => "") ∅ q_nc 0
                     (Some empty_feeds) "t0" in
  let '(r2, _) := alerts_handler (fun _ => "") c1 q 1000 None "t1" in
  c1 = ∅ /\ r1 <> ServerError /\ r2 = ServerError.
Proof.
  vm_compute. split; [reflexivity|]. split; [discriminate | reflexivity].
Qed.

End HandlerFacts.

Module StrFacts.
Import JsStr.

Lemma chars_str (l : list ascii) : chars (str l) = l.
Proof. apply list_ascii_of_string_of_list_ascii. Qed.

Lemma str_chars (s : string) : str (chars s) = s.
Proof. apply string_of_list_ascii_of_string. Qed.

Lemma chars_app (s1 s2 : string) :
  chars (s1 ++ s2)%string = chars s1 ++ chars s2.
Proof. induction s1 as [|a s1 IH]; simpl; [reflexivity | now rewrite IH]. Qed.

Lemma chars_empty_iff (s : string) : chars s = [] <-> s = "".
Proof.
  split; [|intros ->; reflexivity].
  intros H. rewrite <- (str_chars s), H. reflexivity.
Qed.

Lemma up_up (a : ascii) : up (up a) = up a.
Proof. destruct a as [[] [] [] [] [] [] [] []]; reflexivity. Qed.

Lemma toUpperCase_idem (s : string) : toUpperCase (toUpperCase s) = toUpperCase s.
Proof.
  unfold toUpperCase. rewrite chars_str, map_map.
  f_equal. apply map_ext. apply up_up.
Qed.

Lemma toUpperCase_empty (s : string) : toUpperCase s = "" <-> s = "".
Proof.
  split; [|intros ->; reflexivity].
  unfold toUpperCase. intros H.
  apply (f_equal chars) in H. rewrite chars_str in H.
  apply chars_empty_iff. destruct (chars s); [reflexivity | discriminate].
Qed.

Lemma toLowerCase_empty (s : string) : toLowerCase s = "" <-> s = "".
Proof.
  split; [|intros ->; reflexivity].
  unfold toLowerCase. intros H.
  apply (f_equal chars) in H. rewrite chars_str in H.
  apply chars_empty_iff. destruct (chars s); [reflexivity | discriminate].
Qed.

End StrFacts.

Module ExtraHandlerFacts.
Import JsStr Atom Aggregate Cache Handler StrFacts.

(** The cache key a query is served under. *)
Definition req_key (nts : Q -> string) (q : Query) : string :=
  alerts_key nts (query_state q) (coord (q_lat q) DEFAULT_LAT)
    (coord (q_lon q) DEFAULT_LON).

(** The body a successful fetch produces. *)
Definition fresh_body (q : Query) (xmls : list string) (now_iso : string)
  : AlertResult :=
  aggregate (query_state q) (coord (q_lat q) DEFAULT_LAT)
    (coord (q_lon q) DEFAULT_LON) (flat_map parseAtom xmls) now_iso.

Lemma handler_hit nts c q now fetched now_iso d :
  query_nocache q = false ->
  cache_get c (req_key nts q) now = Some d ->
  alerts_handler nts c q now fetched now_iso = (Json d, c).
Proof.
  intros Hnc Hget. unfold alerts_handler. cbv zeta.
  rewrite Hnc. unfold req_key in Hget. simpl. rewrite Hget. reflexivity.
Qed.

(** [/api/alerts] without [nocache]: a live cache entry for the request's
    key is served as it is, whatever the feeds would return, and the cache
    is left unchanged. *)
Theorem alerts_cache_hit_served nts c q now fetched now_iso d :
  query_nocache q = false ->
  cache_get c (req_key nts q) now = Some d ->
  alerts_handler nts c q now fetched now_iso = (Json d, c).
Proof.
  apply handler_hit.
Qed.

Definition nts0 : Q -> string := fun _ => "1e+21".
Definition q0 : Query := mkQuery None None None None.
Definition q_nc : Query := mkQuery (Some "al") None None (Some "TRUE").
Definition body0 : AlertResult := fresh_body q0 [] "2025-01-01T00:00:00.000Z".
Definition c0 : cache AlertResult :=
  cache_set ∅ (req_key nts0 q0) body0 0 ALERTS_TTL_MS.

Lemma alerts_cache_hit_served_witness :
  query_nocache q0 = false /\
  cache_get c0 (req_key nts0 q0) 1000 = Some body0 /\
  alerts_handler nts0 c0 q0 1000 None "" = (Json body0, c0).
Proof.
  split; [reflexivity|]. split; [vm_compute; reflexivity|].
  apply alerts_cache_hit_served; [reflexivity | vm_compute; reflexivity].
Defined.

(** [/api/alerts]: when the request bypasses the cache or finds no live
    entry, a failed feed fetch answers 500 and leaves the cache as it
    was. *)
Theorem alerts_fetch_failure_keeps_cache nts c q now now_iso :
  (query_nocache q = true \/ cache_get c (req_key nts q) now = None) ->
  alerts_handler nts c q now None now_iso = (ServerError, c).
Proof.
  intros H. unfold alerts_handler. cbv zeta. unfold req_key in H.
  destruct H as [H | H].
  - rewrite H. reflexivity.
  - destruct (query_nocache q); simpl; [reflexivity | now rewrite H].
Qed.

Lemma alerts_fetch_failure_keeps_cache_witness :
  (query_nocache q_nc = true \/ cache_get c0 (req_key nts0 q_nc) 0 = None) /\
  alerts_handler nts0 c0 q_nc 0 None "" = (ServerError, c0).
Proof.
  split; [left; reflexivity|].
  apply alerts_fetch_failure_keeps_cache. left. reflexivity.
Defined.

(** [/api/alerts] round trip: a miss with successful fetches answers the
    aggregated body and stores it under the request's key; the same query
    within [ALERTS_TTL_MS] is then served that body from the cache. *)
Theorem alerts_store_then_serve nts c q now xmls now_iso now' fetched' now_iso' :
  query_nocache q = false ->
  cache_get c (req_key nts q) now = None ->
  (now' < now + ALERTS_TTL_MS)%Z ->
  let d := fresh_body q xmls now_iso in
  let c1 := cache_set c (req_key nts q) d now ALERTS_TTL_MS in
  alerts_handler nts c q now (Some xmls) now_iso = (Json d, c1) /\
  alerts_handler nts c1 q now' fetched' now_iso' = (Json d, c1).
Proof.
  intros Hnc Hget Hnow d c1. split.
  - unfold alerts_handler. cbv zeta. rewrite Hnc. unfold req_key in Hget.
    simpl. rewrite Hget. reflexivity.
  - apply handler_hit; [exact Hnc|].
    unfold c1, cache_get, cache_set. rewrite lookup_insert_eq. simpl.
    now rewrite (proj2 (Z.ltb_lt _ _) Hnow).
Qed.

Lemma alerts_store_then_serve_witness :
  query_nocache q0 = false /\
  cache_get (∅ : cache AlertResult) (req_key nts0 q0) 0 = None /\
  (119999 < 0 + ALERTS_TTL_MS)%Z /\
  alerts_handler nts0 ∅ q0 0 (Some []) "t0" =
    (Json (fresh_body q0 [] "t0"),
     cache_set ∅ (req_key nts0 q0) (fresh_body q0 [] "t0") 0 ALERTS_TTL_MS) /\
  alerts_handler nts0
    (cache_set ∅ (req_key nts0 q0) (fresh_body q0 [] "t0") 0 ALERTS_TTL_MS)
    q0 119999 None "t1" =
    (Json (fresh_body q0 [] "t0"),
     cache_set ∅ (req_key nts0 q0) (fresh_body q0 [] "t0") 0 ALERTS_TTL_MS).
Proof.
  split; [reflexivity|]. split; [reflexivity|]. split; [reflexivity|].
  apply (alerts_store_then_serve nts0 ∅ q0 0 [] "t0" 119999 None "t1");
    reflexivity.
Defined.

(** [/api/alerts] writes at most the entry of its own key: every other
    key of the cache keeps its entry. *)
Theorem alerts_other_keys_untouched nts c q now fetched now_iso k :
  k <> req_key nts q ->
  snd (alerts_handler nts c q now fetched now_iso) !! k = c !! k.
Proof.
  intros Hk. unfold alerts_handler. cbv zeta. unfold req_key in Hk.
  destruct (if negb (query_nocache q) then _ else None); [reflexivity|].
  destruct fetched as [xmls|]; [|reflexivity]. simpl.
  destruct (negb (query_nocache q)); [|reflexivity].
  unfold cache_set. now rewrite lookup_insert_ne by congruence.
Qed.

Lemma alerts_other_keys_untouched_witness :
  "air:1:2" <> req_key nts0 q0 /\
  snd (alerts_handler nts0 c0 q0 200000 (Some []) "t") !! "air:1:2"
    = c0 !! "air:1:2".
Proof.
  assert (H : "air:1:2" <> req_key nts0 q0) by (vm_compute; discriminate).
  split; [exact H | apply alerts_other_keys_untouched, H].
Defined.

Lemma query_state_upper s lat lon nc :
  query_state (mkQuery (Some (toUpperCase s)) lat lon nc)
  = query_state (mkQuery (Some s) lat lon nc).
Proof.
  unfold query_state. simpl. unfold js_or.
  destruct (String.eqb s "") eqn:E.
  - apply String.eqb_eq in E. subst. reflexivity.
  - destruct (String.eqb (toUpperCase s) "") eqn:E'.
    + apply String.eqb_eq, (proj1 (toUpperCase_empty s)) in E'. subst. discriminate.
    + simpl. apply toUpperCase_idem.
Qed.

(** [/api/alerts]: the [state] parameter is case-insensitive; a request
    with [state=s] behaves exactly as one with the upper-cased [s], in its
    response and in the cache it leaves. *)
Theorem alerts_state_case_insensitive nts c s lat lon nc now fetched now_iso :
  alerts_handler nts c (mkQuery (Some s) lat lon nc) now fetched now_iso
  = alerts_handler nts c (mkQuery (Some (toUpperCase s)) lat lon nc) now
      fetched now_iso.
Proof. unfold alerts_handler. now rewrite query_state_upper. Qed.

End ExtraHandlerFacts.

Module KeyFacts.
Import JsStr Atom Aggregate Handler StrFacts.

(** No [:] and no [,] in a string. *)
Definition sep_free (s : string) : Prop :=
  ~ In ":"%char (chars s) /\ ~ In ","%char (chars s).

Lemma sep_free_app (s1 s2 : string) :
  sep_free s1 -> sep_free s2 -> sep_free (s1 ++ s2).
Proof.
  unfold sep_free. rewrite chars_app. intros [H1 H2] [H3 H4].
  split; intros H; apply in_app_or in H; tauto.
Qed.

Lemma digit_char_ok (r : N) :
  (r < 10)%N -> ascii_of_N (48 + r) <> ":"%char /\ ascii_of_N (48 + r) <> ","%char.
Proof.
  intros Hr.
  assert (r = 0 \/ r = 1 \/ r = 2 \/ r = 3 \/ r = 4 \/ r = 5 \/ r = 6 \/ r = 7
          \/ r = 8 \/ r = 9)%N as Hc by lia.
  repeat destruct Hc as [-> | Hc]; subst; split; discriminate.
Qed.

Lemma digits_aux_sep_free (fuel : nat) (n : N) (acc : string) :
  sep_free acc -> sep_free (digits_aux fuel n acc).
Proof.
  revert n acc. induction fuel as [|fuel IH]; intros n acc Hacc; simpl; [exact Hacc|].
  assert (Hd : sep_free (String (ascii_of_N (48 + n mod 10)) acc)).
  { destruct (digit_char_ok (n mod 10)) as [D1 D2]; [apply N.mod_lt; discriminate|].
    destruct Hacc as [A1 A2]. split; simpl; intros [H|H]; auto. }
  destruct (n <? 10)%N; [exact Hd | apply IH, Hd].
Qed.

Lemma N_to_string_sep_free (n : N) : sep_free (N_to_string n).
Proof. apply digits_aux_sep_free. split; simpl; tauto. Qed.

Lemma toFixed2_sep_free (nts : Q -> string) (x : Q) :
  (forall y, sep_free (nts y)) -> sep_free (toFixed2 nts x).
Proof.
  intros Hn. unfold toFixed2.
  destruct (Qle_bool _ _); [apply Hn|].
  assert (Hl : forall s, s = "" \/ s = "-" \/ s = "." \/ s = "0" -> sep_free s)
    by (intros s Hs; repeat destruct Hs as [-> | Hs]; subst;
        split; simpl; intuition discriminate).
  cbv zeta. destruct (JsNum.Qlt_bool x 0); destruct (_ <? 10)%N;
    repeat apply sep_free_app; try apply N_to_string_sep_free; apply Hl; tauto.
Qed.

Lemma split_last {X} (x : X) (l1 l2 l3 l4 : list X) :
  ~ In x l2 -> ~ In x l4 -> l1 ++ x :: l2 = l3 ++ x :: l4 -> l1 = l3 /\ l2 = l4.
Proof.
  revert l3. induction l1 as [|a l1 IH]; intros [|b l3] H2 H4 E; simpl in E.
  - injection E as ->. split; reflexivity.
  - injection E as -> E. exfalso. apply H2. rewrite E. apply in_or_app. right. now left.
  - injection E as <- E. exfalso. apply H4. rewrite <- E. apply in_or_app. right. now left.
  - injection E as -> E. destruct (IH l3 H2 H4 E) as [-> ->]. split; reflexivity.
Qed.

Lemma split_first {X} (x : X) (l1 l2 l3 l4 : list X) :
  ~ In x l1 -> ~ In x l3 -> l1 ++ x :: l2 = l3 ++ x :: l4 -> l1 = l3 /\ l2 = l4.
Proof.
  revert l3. induction l1 as [|a l1 IH]; intros [|b l3] H1 H3 E; simpl in E.
  - injection E as ->. split; reflexivity.
  - injection E as -> E. exfalso. apply H3. now left.
  - injection E as <- E. exfalso. apply H1. now left.
  - injection E as -> E.
    destruct (IH l3 (fun H => H1 (or_intror H)) (fun H => H3 (or_intror H)) E)
      as [-> ->].
    split; reflexivity.
Qed.

Lemma chars_inj (s1 s2 : string) : chars s1 = chars s2 -> s1 = s2.
Proof. intros H. now rewrite <- (str_chars s1), <- (str_chars s2), H. Qed.

(** The cache key of [/api/alerts] separates requests: two requests share
    an entry exactly when their upper-cased states are equal and their
    coordinates agree to two decimals ([toFixed(2)]), provided
    [Number::toString] writes no [:] and no [,]. *)
Theorem alerts_key_injective (nts : Q -> string) (st1 st2 : string)
  (lat1 lon1 lat2 lon2 : Q) :
  (forall y, sep_free (nts y)) ->
  alerts_key nts st1 lat1 lon1 = alerts_key nts st2 lat2 lon2 <->
  st1 = st2 /\ toFixed2 nts lat1 = toFixed2 nts lat2 /\
  toFixed2 nts lon1 = toFixed2 nts lon2.
Proof.
  intros Hn. split; [|intros [-> [H1 H2]]; unfold alerts_key; now rewrite H1, H2].
  unfold alerts_key. intros E. apply (f_equal chars) in E.
  rewrite !chars_app in E. apply app_inv_head in E.
  change (chars ":") with [":"%char] in E. change (chars ",") with [","%char] in E.
  simpl in E.
  rewrite !app_comm_cons, !app_assoc in E.
  apply app_inv_tail in E.
  rewrite <- !app_assoc in E. simpl in E.
  destruct (toFixed2_sep_free nts lat1 Hn) as [A1 A1'].
  destruct (toFixed2_sep_free nts lon1 Hn) as [B1 B1'].
  destruct (toFixed2_sep_free nts lat2 Hn) as [A2 A2'].
  destruct (toFixed2_sep_free nts lon2 Hn) as [B2 B2'].
  apply split_last in E as [Est E].
  2, 3: intros H; apply in_app_or in H as [H|[H|H]]; try discriminate; tauto.
  apply split_first in E as [Ela Elo]; [|assumption | assumption].
  split; [apply chars_inj, Est|]. split; apply chars_inj; assumption.
Qed.

Definition nts0 : Q -> string := fun _ => "1e+21".

Lemma alerts_key_injective_witness :
  (forall y, sep_free (nts0 y)) /\
  (alerts_key nts0 "GA" (Qmake 33749 1000) (Qmake (-84388) 1000)
   = alerts_key nts0 "GA" (Qmake 337501 10000) (Qmake (-84388) 1000) <->
   "GA" = "GA" /\
   toFixed2 nts0 (Qmake 33749 1000) = toFixed2 nts0 (Qmake 337501 10000) /\
   toFixed2 nts0 (Qmake (-84388) 1000) = toFixed2 nts0 (Qmake (-84388) 1000)).
Proof.
  assert (H : forall y, sep_free (nts0 y))
    by (intros y; split; simpl; intuition discriminate).
  split; [exact H | apply alerts_key_injective, H].
Defined.

End KeyFacts.

Module ExtraAggregateFacts.
Import JsStr Atom Aggregate AggregateFacts.

Lemma sublist_map {X Y} (f : X -> Y) (l1 l2 : list X) :
  l1 `sublist_of` l2 -> map f l1 `sublist_of` map f l2.
Proof. induction 1; simpl; constructor; assumption. Qed.

Lemma filter_sublist {X} (f : X -> bool) (l : list X) :
  List.filter f l `sublist_of` l.
Proof.
  induction l as [|a l IH]; simpl; [constructor|].
  destruct (f a); constructor; exact IH.
Qed.

Lemma Forall_sublist' {X} (P : X -> Prop) (l1 l2 : list X) :
  l1 `sublist_of` l2 -> Forall P l2 -> Forall P l1.
Proof.
  induction 1 as [|x l1 l2 _ IH|x l1 l2 _ IH]; intros H; [constructor | |].
  - inversion H; subst. constructor; auto.
  - inversion H; subst. auto.
Qed.

Lemma state_step_sublist (st : string) (l : list AlertEntry) :
  fst (state_step st l) `sublist_of` l /\ snd (state_step st l) <= length l.
Proof.
  unfold state_step. destruct (_ && _); simpl; [|split; [reflexivity | lia]].
  split; [|apply sublist_length, filter_sublist].
  destruct (length _ =? 0); [reflexivity | apply filter_sublist].
Qed.

Lemma poly_step_sublist (lat lon : Q) (l : list AlertEntry) :
  fst (poly_step lat lon l) `sublist_of` l /\ snd (poly_step lat lon l) <= length l.
Proof.
  unfold poly_step, polyHits. simpl.
  split; [|apply sublist_length, filter_sublist].
  destruct (0 <? _); [apply filter_sublist | reflexivity].
Qed.

Lemma working_sublist (st : string) (lat lon : Q) (merged : list AlertEntry) :
  working st lat lon merged `sublist_of` dedup merged.
Proof.
  unfold working. transitivity (fst (state_step st (dedup merged))).
  - apply poly_step_sublist.
  - apply state_step_sublist.
Qed.

Lemma byId_step_nodup (m : list (string * AlertEntry)) (x : AlertEntry) :
  NoDup (map fst m) -> NoDup (map fst (byId_step m x)).
Proof.
  intros Hm. unfold byId_step.
  destruct (id x) as [k|]; [|exact Hm].
  destruct (String.eqb k ""); [exact Hm|].
  destruct (existsb _ m) eqn:Ex; [exact Hm|].
  rewrite map_app. simpl. apply NoDup_app. split; [exact Hm|]. split.
  - intros y Hy Hy'. apply list_elem_of_singleton in Hy'. subst y.
    apply list_elem_of_In, in_map_iff in Hy. destruct Hy as [[k' e] [Hk Hin]].
    simpl in Hk. subst k'.
    assert (existsb (fun p => String.eqb (fst p) k) m = true) as Ht.
    { apply existsb_exists. exists (k, e). split; [exact Hin|]. apply String.eqb_refl. }
    congruence.
  - apply NoDup_singleton.
Qed.

Lemma fold_byId_nodup (l : list AlertEntry) (m : list (string * AlertEntry)) :
  NoDup (map fst m) -> NoDup (map fst (fold_left byId_step l m)).
Proof.
  revert m. induction l as [|x l IH]; intros m Hm; simpl; [exact Hm|].
  apply IH, byId_step_nodup, Hm.
Qed.

Lemma map_id_keys (m : list (string * AlertEntry)) :
  Forall key_ok m -> map id (map snd m) = map Some (map fst m).
Proof.
  induction 1 as [|[k e] m [Hk _] _ IH]; simpl in *; [reflexivity|].
  now rewrite Hk, IH.
Qed.

Lemma NoDup_map_Some {X} (l : list X) : NoDup l -> NoDup (map Some l).
Proof.
  induction 1 as [|x l Hx _ IH]; simpl; constructor; [|exact IH].
  intros Hin. apply Hx. apply list_elem_of_In in Hin. apply list_elem_of_In.
  apply in_map_iff in Hin. destruct Hin as [y [Hy Hin]]. injection Hy as ->.
  exact Hin.
Qed.

Lemma dedup_ids (merged : list AlertEntry) :
  NoDup (map id (dedup merged)) /\
  Forall (fun e => exists k, id e = Some k /\ k <> "") (dedup merged).
Proof.
  unfold dedup, build_byId.
  assert (Hk : Forall key_ok (fold_left byId_step merged []))
    by (apply fold_byId_key_ok; constructor).
  split.
  - rewrite map_id_keys by exact Hk. apply NoDup_map_Some, fold_byId_nodup.
    constructor.
  - apply Forall_map. eapply Forall_impl; [exact Hk|].
    intros [k e] [H1 H2]. exists k. split; assumption.
Qed.

(** The items of an [/api/alerts] body are entries of the deduplicated
    feeds, in feed order, with pairwise distinct ids, each id a non-empty
    string. *)
Theorem aggregate_items_unique (st : string) (lat lon : Q)
  (merged : list AlertEntry) (now_iso : string) :
  let its := items (aggregate st lat lon merged now_iso) in
  its `sublist_of` dedup merged /\ NoDup (map id its) /\
  Forall (fun e => exists k, id e = Some k /\ k <> "") its.
Proof.
  cbv zeta. rewrite (proj1 (aggregate_items_firstn st lat lon merged now_iso)).
  assert (Hs : firstn 50 (working st lat lon merged) `sublist_of` dedup merged).
  { transitivity (working st lat lon merged);
      [apply sublist_take | apply working_sublist]. }
  destruct (dedup_ids merged) as [Hn Hf].
  split; [exact Hs|]. split.
  - eapply sublist_NoDup; [exact Hn|]. apply sublist_map, Hs.
  - eapply Forall_sublist'; [exact Hs | exact Hf].
Qed.

(** The debug counters of an [/api/alerts] body: [fetched] is the number of
    distinct alerts, [afterState], [afterPoly] and [count] never exceed it,
    and [feeds] is 3. *)
Theorem aggregate_debug_counters (st : string) (lat lon : Q)
  (merged : list AlertEntry) (now_iso : string) :
  let r := aggregate st lat lon merged now_iso in
  fetched (debug r) = length (dedup merged) /\
  afterState (debug r) <= fetched (debug r) /\
  afterPoly (debug r) <= fetched (debug r) /\
  count r <= fetched (debug r) /\
  feeds (debug r) = 3.
Proof.
  cbv zeta. unfold aggregate.
  pose proof (state_step_sublist st (dedup merged)) as [Hs1 Hs2].
  destruct (state_step st (dedup merged)) as [i1 a1]; cbn [fst snd] in *.
  pose proof (poly_step_sublist lat lon i1) as [Hp1 Hp2].
  destruct (poly_step lat lon i1) as [i2 a2]; cbn [fst snd] in *. simpl.
  apply sublist_length in Hs1, Hp1.
  rewrite length_firstn. lia.
Qed.

End ExtraAggregateFacts.

Module ExtraGeometryFacts.
Import JsNum Geometry.









End ExtraGeometryFacts.

Module EndpointFacts.
Import Cache.

(** [/api/weather] and [/api/air] round trip: a miss stores the fetched
    data, which the same key then serves, unchanged and without a fetch,
    until the TTL runs out. *)
Theorem cached_endpoint_store_then_hit {A} (c : cache A) (key : string)
  (now ttl : Z) (d : A) (now' : Z) (fetched' : option A) :
  cache_get c key now = None -> (now' < now + ttl)%Z ->
  let c1 := cache_set c key d now ttl in
  cached_endpoint c key now ttl (Some d) = (Some d, c1) /\
  cached_endpoint c1 key now' ttl fetched' = (Some d, c1).
Proof.
  intros Hget Hnow c1. unfold cached_endpoint. rewrite Hget. split; [reflexivity|].
  unfold c1, cache_get at 1, cache_set. rewrite lookup_insert_eq. simpl.
  now rewrite (proj2 (Z.ltb_lt _ _) Hnow).
Qed.

Lemma cached_endpoint_store_then_hit_witness :
  cache_get (∅ : cache nat) "40:-80:us" 0 = None /\
  (59999 < 0 + DEFAULT_TTL_MS)%Z /\
  cached_endpoint ∅ "40:-80:us" 0 DEFAULT_TTL_MS (Some 7)
    = (Some 7, cache_set ∅ "40:-80:us" 7 0 DEFAULT_TTL_MS) /\
  cached_endpoint (cache_set ∅ "40:-80:us" 7 0 DEFAULT_TTL_MS) "40:-80:us"
    59999 DEFAULT_TTL_MS None
    = (Some 7, cache_set ∅ "40:-80:us" 7 0 DEFAULT_TTL_MS).
Proof.
  split; [reflexivity|]. split; [reflexivity|].
  apply (cached_endpoint_store_then_hit ∅ "40:-80:us" 0 DEFAULT_TTL_MS 7 59999 None);
    reflexivity.
Defined.

(** [/api/weather] and [/api/air] write no cache entry when the provider
    fails (the answer is then the live entry, if any, else a 500), and
    never touch another key. *)
Theorem cached_endpoint_writes {A} (c : cache A) (key : string) (now ttl : Z)
  (fetched : option A) :
  (fetched = None -> cached_endpoint c key now ttl fetched = (cache_get c key now, c)) /\
  (forall k, k <> key -> snd (cached_endpoint c key now ttl fetched) !! k = c !! k).
Proof.
  unfold cached_endpoint. split.
  - intros ->. destruct (cache_get c key now); reflexivity.
  - intros k Hk. destruct (cache_get c key now); [reflexivity|].
    destruct fetched; [|reflexivity]. simpl. unfold cache_set.
    now rewrite lookup_insert_ne by congruence.
Qed.

End EndpointFacts.

Module WeatherFacts.
Import JsStr Atom Weather StrFacts.

(** Units of [/api/weather]: [resolveUnits] never yields ['imperial'];
    the labels are Fahrenheit exactly when the forecast request asks the
    upstream for Fahrenheit, which is exactly when the [units] parameter is
    missing, empty, or ['us'] or ['imperial'] in any case. *)
Theorem units_fahrenheit_iff (q : option string) :
  resolveUnits q <> "imperial" /\
  (fst (unitsFor (resolveUnits q)) = "°F" <-> unit_params (resolveUnits q) <> []) /\
  (unit_params (resolveUnits q) <> [] <->
   match q with
   | None => True
   | Some s => s = "" \/ toLowerCase s = "us" \/ toLowerCase s = "imperial"
   end).
Proof.
  assert (Hus : "us" <> "imperial" /\
                (fst (unitsFor "us") = "°F" <-> unit_params "us" <> []) /\
                unit_params "us" <> []).
  { split; [discriminate|].
    split; [split; intros _; [discriminate | reflexivity] | discriminate]. }
  destruct Hus as [U1 [U2 U3]].
  destruct q as [s|].
  2: { change (resolveUnits None) with "us".
       split; [exact U1|]. split; [exact U2|]. split; intros _; [exact I | exact U3]. }
  destruct (String.eqb s "") eqn:E.
  { apply String.eqb_eq in E. subst s. change (resolveUnits (Some "")) with "us".
    split; [exact U1|]. split; [exact U2|].
    split; intros _; [left; reflexivity | exact U3]. }
  destruct (String.eqb (toLowerCase s) "imperial") eqn:Ei.
  { assert (R : resolveUnits (Some s) = "us")
      by (unfold resolveUnits, js_or; rewrite E; cbv zeta; cbn [default from_option Datatypes.id];
          rewrite Ei; reflexivity).
    rewrite R. split; [exact U1|]. split; [exact U2|].
    split; intros _; [right; right; apply String.eqb_eq, Ei | exact U3]. }
  assert (R : resolveUnits (Some s) = toLowerCase s)
    by (unfold resolveUnits, js_or; rewrite E; cbv zeta; cbn [default from_option Datatypes.id];
        rewrite Ei; reflexivity).
  rewrite R. apply String.eqb_neq in Ei, E.
  unfold unitsFor, unit_params.
  rewrite (proj2 (String.eqb_neq _ _) Ei), orb_false_r.
  destruct (String.eqb (toLowerCase s) "us") eqn:Eu.
  - apply String.eqb_eq in Eu. rewrite Eu. simpl. intuition congruence.
  - apply String.eqb_neq in Eu.
    destruct (String.eqb (toLowerCase s) "metric"); simpl; intuition congruence.
Qed.

(** Severity order of the category labels. *)
Definition aqi_rank (label : string) : nat :=
  if String.eqb label "Good" then 0
  else if String.eqb label "Moderate" then 1
  else if String.eqb label "USG" then 2
  else if String.eqb label "Unhealthy" then 3
  else if String.eqb label "Very Unhealthy" then 4
  else if String.eqb label "Hazardous" then 5
  else 6.

Lemma Qle_bool_false (a b : Q) : Qle_bool a b = false <-> (b < a)%Q.
Proof.
  split.
  - intros H. apply Qnot_le_lt. intros Hle. apply Qle_bool_iff in Hle. congruence.
  - intros H. destruct (Qle_bool a b) eqn:E; [|reflexivity].
    apply Qle_bool_iff in E. exfalso. apply (Qlt_not_le _ _ H E).
Qed.

(** [aqiCategory] is monotone: a larger AQI never gets a milder category,
    and a number never gets ['Unknown']. *)
Theorem aqiCategory_monotone (a b : Q) :
  (a <= b)%Q ->
  fst (aqiCategory (Some a)) <> "Unknown" /\
  aqi_rank (fst (aqiCategory (Some a))) <= aqi_rank (fst (aqiCategory (Some b))).
Proof.
  intros Hab. unfold aqiCategory.
  repeat match goal with
         | |- context [Qle_bool ?x ?y] => destruct (Qle_bool x y) eqn:?
         end;
  repeat match goal with
         | H : Qle_bool _ _ = true |- _ => apply Qle_bool_iff in H
         | H : Qle_bool _ _ = false |- _ => apply Qle_bool_false in H
         end;
  vm_compute; (split; [discriminate | lia]) || (exfalso; lra).
Qed.

Lemma aqiCategory_monotone_witness :
  (Qmake 42 1 <= Qmake 180 1)%Q /\
  fst (aqiCategory (Some (Qmake 42 1))) <> "Unknown" /\
  aqi_rank (fst (aqiCategory (Some (Qmake 42 1))))
    <= aqi_rank (fst (aqiCategory (Some (Qmake 180 1)))).
Proof.
  assert (H : (Qmake 42 1 <= Qmake 180 1)%Q) by (apply Qle_bool_iff; reflexivity).
  split; [exact H | apply aqiCategory_monotone, H].
Defined.

End WeatherFacts.

Module CookieFacts.
Import JsStr Atom Cookies StrFacts.

(** The segments [parseCookies] reduces over. *)
Definition segments (r : string) : list string :=
  List.filter (fun v => negb (String.eqb v "")) (map trim (split_char r ";"%char)).

Lemma parseCookies_segments dec (r : string) :
  parseCookies dec (Some r) = fold_left (cookie_step dec) (segments r) (Some ∅).
Proof.
  unfold parseCookies, segments, js_or.
  destruct (String.eqb r "") eqn:E; [apply String.eqb_eq in E; subst|]; reflexivity.
Qed.

Lemma split_char_aux_app (sep : ascii) (l1 l2 cur : list ascii) :
  split_char_aux sep (l1 ++ sep :: l2) cur
  = split_char_aux sep l1 cur ++ split_char_aux sep l2 [].
Proof.
  revert cur. induction l1 as [|a l1 IH]; intros cur; simpl.
  - rewrite Ascii.eqb_refl. reflexivity.
  - destruct (Ascii.eqb a sep); simpl; [f_equal|]; apply IH.
Qed.

Lemma split_char_aux_nosep (sep : ascii) (l cur : list ascii) :
  ~ In sep l -> split_char_aux sep l cur = [str (rev cur ++ l)].
Proof.
  revert cur. induction l as [|a l IH]; intros cur Hl; simpl.
  - now rewrite app_nil_r.
  - destruct (Ascii.eqb_spec a sep) as [->|Hne]; [exfalso; apply Hl; now left|].
    rewrite IH by (intros H; apply Hl; now right). simpl.
    now rewrite <- app_assoc.
Qed.

Lemma filter_app' {X} (f : X -> bool) (l1 l2 : list X) :
  List.filter f (l1 ++ l2) = List.filter f l1 ++ List.filter f l2.
Proof.
  induction l1 as [|a l1 IH]; simpl; [reflexivity|].
  destruct (f a); simpl; now rewrite IH.
Qed.

Lemma segments_app (r1 r2 : string) :
  segments (r1 ++ ";" ++ r2)%string = segments r1 ++ segments r2.
Proof.
  unfold segments, split_char. rewrite chars_app. simpl.
  rewrite split_char_aux_app, map_app, filter_app'. reflexivity.
Qed.

Lemma segments_one (seg : string) :
  ~ In ";"%char (chars seg) ->
  segments seg = if String.eqb (trim seg) "" then [] else [trim seg].
Proof.
  intros H. unfold segments, split_char.
  rewrite split_char_aux_nosep by exact H. simpl. rewrite str_chars.
  destruct (String.eqb (trim seg) ""); reflexivity.
Qed.

Lemma length_chars (s : string) : length (chars s) = String.length s.
Proof. induction s as [|a s IH]; simpl; [reflexivity | now rewrite IH]. Qed.

Lemma index_of_aux_app (a : ascii) (l1 l2 : list ascii) (i : nat) :
  ~ In a l1 -> index_of_aux a (l1 ++ a :: l2) i = Some (i + length l1).
Proof.
  revert i. induction l1 as [|b l1 IH]; intros i H; simpl.
  - rewrite Ascii.eqb_refl. f_equal. lia.
  - destruct (Ascii.eqb_spec a b) as [->|Hne]; [exfalso; apply H; now left|].
    rewrite IH by (intros H'; apply H; now right). f_equal. lia.
Qed.

Lemma index_of_aux_none (a : ascii) (l : list ascii) (i : nat) :
  ~ In a l -> index_of_aux a l i = None.
Proof.
  revert i. induction l as [|b l IH]; intros i H; simpl; [reflexivity|].
  destruct (Ascii.eqb_spec a b) as [->|Hne]; [exfalso; apply H; now left|].
  apply IH. intros H'. apply H. now right.
Qed.

Lemma skipn_app_cons {X} (l1 l2 : list X) (a : X) :
  skipn (S (length l1)) (l1 ++ a :: l2) = l2.
Proof. induction l1 as [|b l1 IH]; simpl; [reflexivity | exact IH]. Qed.

Lemma firstn_length_app {X} (l1 l2 : list X) :
  firstn (length l1) (l1 ++ l2) = l1.
Proof. induction l1 as [|b l1 IH]; simpl; [reflexivity | now rewrite IH]. Qed.

(** One [key=value] segment whose key holds no [=]. *)
Lemma cookie_step_pair dec (m : gmap string string) (k v : string) :
  ~ In "="%char (chars k) ->
  cookie_step dec (Some m) (k ++ "=" ++ v) =
  match dec v with
  | Some d => Some (if String.eqb k "__proto__" then m else <[k := d]> m)
  | None => None
  end.
Proof.
  intros Hk. unfold cookie_step, index_of.
  rewrite chars_app. simpl.
  rewrite index_of_aux_app by exact Hk. simpl.
  assert (Hv : slice (k ++ "=" ++ v) (S (length (chars k)))
                 (String.length (k ++ "=" ++ v)) = v).
  { unfold slice. rewrite <- length_chars, chars_app.
    change (chars ("=" ++ v)) with ("="%char :: chars v).
    rewrite length_app. simpl.
    replace (length (chars k) + S (length (chars v)) - S (length (chars k)))
      with (length (chars v)) by lia.
    rewrite skipn_app_cons, firstn_all. apply str_chars. }
  assert (Hk' : slice (k ++ "=" ++ v) 0 (length (chars k)) = k).
  { unfold slice. rewrite chars_app, Nat.sub_0_r.
    rewrite skipn_0, firstn_length_app. apply str_chars. }
  rewrite Hv. destruct (dec v); [|reflexivity]. now rewrite Hk'.
Qed.

Lemma fold_cookie_none dec (l : list string) :
  fold_left (cookie_step dec) l None = None.
Proof. induction l; simpl; auto. Qed.

Lemma trim_pair_nonempty (seg k v : string) :
  trim seg = (k ++ "=" ++ v)%string -> String.eqb (trim seg) "" = false.
Proof.
  intros H. rewrite H. apply String.eqb_neq. intros E.
  apply (f_equal chars) in E. rewrite chars_app in E. simpl in E.
  destruct (chars k); discriminate.
Qed.

Lemma parse_append_pair dec (r1 seg k v d : string)
  (m : gmap string string) :
  parseCookies dec (Some r1) = Some m ->
  ~ In ";"%char (chars seg) ->
  trim seg = (k ++ "=" ++ v)%string ->
  ~ In "="%char (chars k) -> k <> "__proto__" ->
  dec v = Some d ->
  parseCookies dec (Some (r1 ++ ";" ++ seg)%string) = Some (<[k := d]> m).
Proof.
  intros Hr1 Hsc Htr Hk Hproto Hd.
  rewrite parseCookies_segments, segments_app, fold_left_app.
  rewrite <- parseCookies_segments, Hr1.
  rewrite (segments_one seg Hsc).
  rewrite (trim_pair_nonempty seg k v Htr), Htr. cbn [fold_left].
  rewrite cookie_step_pair by exact Hk. rewrite Hd.
  now rewrite (proj2 (String.eqb_neq _ _) Hproto).
Qed.

(** [parseCookies]: appending a [k=v] segment to a header that parses
    sets [k] to the decoded [v], over any earlier value of [k]. *)
Theorem parseCookies_later_overrides dec (r1 seg k v d : string)
  (m : gmap string string) :
  parseCookies dec (Some r1) = Some m ->
  ~ In ";"%char (chars seg) ->
  trim seg = (k ++ "=" ++ v)%string ->
  ~ In "="%char (chars k) -> k <> "__proto__" ->
  dec v = Some d ->
  parseCookies dec (Some (r1 ++ ";" ++ seg)%string) = Some (<[k := d]> m).
Proof. apply parse_append_pair. Qed.

Definition dec_id : string -> option string := fun s => Some s.
Definition dec_pct : string -> option string :=
  fun s => if String.eqb s "%" then None else Some s.
Definition vt0 : string -> option string := fun tok => Some ("u-" ++ tok)%string.

Lemma parseCookies_later_overrides_witness :
  parseCookies dec_id (Some "auth=old; theme=dark")
    = Some (<["theme" := "dark"]> (<["auth" := "old"]> ∅)) /\
  ~ In ";"%char (chars " auth=new") /\
  trim " auth=new" = ("auth" ++ "=" ++ "new")%string /\
  ~ In "="%char (chars "auth") /\ "auth" <> "__proto__" /\
  dec_id "new" = Some "new" /\
  parseCookies dec_id (Some ("auth=old; theme=dark" ++ ";" ++ " auth=new")%string)
    = Some (<["auth" := "new"]> (<["theme" := "dark"]> (<["auth" := "old"]> ∅))).
Proof.
  assert (H1 : parseCookies dec_id (Some "auth=old; theme=dark")
                 = Some (<["theme" := "dark"]> (<["auth" := "old"]> ∅)))
    by (vm_compute; reflexivity).
  assert (H2 : ~ In ";"%char (chars " auth=new")) by (simpl; intuition discriminate).
  assert (H3 : trim " auth=new" = ("auth" ++ "=" ++ "new")%string)
    by (vm_compute; reflexivity).
  assert (H4 : ~ In "="%char (chars "auth")) by (simpl; intuition discriminate).
  assert (H5 : "auth" <> "__proto__") by discriminate.
  assert (H6 : dec_id "new" = Some "new") by reflexivity.
  do 6 (split; [assumption|]).
  exact (parseCookies_later_overrides dec_id "auth=old; theme=dark" " auth=new"
           "auth" "new" "new" _ H1 H2 H3 H4 H5 H6).
Defined.

(** The authentication middleware reads the last [auth] cookie: after a
    header that parses, an [auth=v] segment with a decodable [v] decides
    [req.user] on its own, whatever came before. *)
Theorem auth_last_cookie_decides dec verifyToken (r1 seg v : string)
  (m : gmap string string) :
  parseCookies dec (Some r1) = Some m ->
  ~ In ";"%char (chars seg) ->
  trim seg = ("auth=" ++ v)%string ->
  dec v <> None ->
  auth_user dec verifyToken (Some (r1 ++ ";" ++ seg)%string)
  = auth_user dec verifyToken (Some seg).
Proof.
  intros Hr1 Hsc Htr Hd. destruct (dec v) as [tok|] eqn:Ed; [|congruence].
  change ("auth=" ++ v)%string with ("auth" ++ "=" ++ v)%string in Htr.
  assert (Hnp : "auth" <> "__proto__") by discriminate.
  assert (Hk : ~ In "="%char (chars "auth")) by (simpl; intuition discriminate).
  unfold auth_user.
  rewrite (parse_append_pair dec r1 seg "auth" v tok m Hr1 Hsc Htr Hk Hnp Ed).
  rewrite parseCookies_segments, (segments_one seg Hsc).
  rewrite (trim_pair_nonempty seg "auth" v Htr), Htr. cbn [fold_left].
  rewrite cookie_step_pair by exact Hk. rewrite Ed. simpl.
  now rewrite !lookup_insert_eq.
Qed.

Lemma auth_last_cookie_decides_witness :
  parseCookies dec_id (Some "auth=old; theme=dark")
    = Some (<["theme" := "dark"]> (<["auth" := "old"]> ∅)) /\
  ~ In ";"%char (chars " auth=new") /\
  trim " auth=new" = ("auth=" ++ "new")%string /\
  dec_id "new" <> None /\
  auth_user dec_id vt0 (Some ("auth=old; theme=dark" ++ ";" ++ " auth=new")%string)
    = auth_user dec_id vt0 (Some " auth=new").
Proof.
  assert (H1 : parseCookies dec_id (Some "auth=old; theme=dark")
                 = Some (<["theme" := "dark"]> (<["auth" := "old"]> ∅)))
    by (vm_compute; reflexivity).
  assert (H2 : ~ In ";"%char (chars " auth=new")) by (simpl; intuition discriminate).
  assert (H3 : trim " auth=new" = ("auth=" ++ "new")%string)
    by (vm_compute; reflexivity).
  assert (H4 : dec_id "new" <> None) by discriminate.
  do 4 (split; [assumption|]).
  apply (auth_last_cookie_decides dec_id vt0 _ _ _ _ H1 H2 H3 H4).
Defined.

(** One segment whose value [decodeURIComponent] rejects makes
    [parseCookies] throw, so the middleware sets no user, even when a
    valid [auth] cookie comes before or after it. *)
Theorem parseCookies_decode_failure dec verifyToken (r1 seg k v r2 : string) :
  ~ In ";"%char (chars seg) ->
  trim seg = (k ++ "=" ++ v)%string ->
  ~ In "="%char (chars k) ->
  dec v = None ->
  parseCookies dec (Some (r1 ++ ";" ++ seg ++ ";" ++ r2)%string) = None /\
  auth_user dec verifyToken (Some (r1 ++ ";" ++ seg ++ ";" ++ r2)%string) = None.
Proof.
  intros Hsc Htr Hk Hd.
  assert (H : parseCookies dec (Some (r1 ++ ";" ++ seg ++ ";" ++ r2)%string) = None).
  { rewrite parseCookies_segments, !segments_app, !fold_left_app.
    rewrite (segments_one seg Hsc).
    rewrite (trim_pair_nonempty seg k v Htr), Htr. cbn [fold_left].
    destruct (fold_left (cookie_step dec) (segments r1) (Some ∅)) as [m|];
      [|apply fold_cookie_none].
    rewrite cookie_step_pair by exact Hk. rewrite Hd. apply fold_cookie_none. }
  split; [exact H|]. unfold auth_user. now rewrite H.
Qed.

Lemma parseCookies_decode_failure_witness :
  ~ In ";"%char (chars " bad=%") /\
  trim " bad=%" = ("bad" ++ "=" ++ "%")%string /\
  ~ In "="%char (chars "bad") /\ dec_pct "%" = None /\
  parseCookies dec_pct (Some ("auth=tok" ++ ";" ++ " bad=%" ++ ";" ++ "x=1")%string)
    = None /\
  auth_user dec_pct vt0 (Some ("auth=tok" ++ ";" ++ " bad=%" ++ ";" ++ "x=1")%string)
    = None.
Proof.
  assert (H1 : ~ In ";"%char (chars " bad=%")) by (simpl; intuition discriminate).
  assert (H2 : trim " bad=%" = ("bad" ++ "=" ++ "%")%string)
    by (vm_compute; reflexivity).
  assert (H3 : ~ In "="%char (chars "bad")) by (simpl; intuition discriminate).
  assert (H4 : dec_pct "%" = None) by reflexivity.
  pose proof (parseCookies_decode_failure dec_pct vt0 "auth=tok" " bad=%" "bad" "%"
                "x=1" H1 H2 H3 H4) as H.
  do 4 (split; [assumption|]). exact H.
Defined.

(** [parseCookies] ignores a segment without [=]: appending one to a
    header changes nothing. *)
Theorem parseCookies_skips_bare_segment dec (r1 seg : string) :
  ~ In ";"%char (chars seg) -> ~ In "="%char (chars (trim seg)) ->
  parseCookies dec (Some (r1 ++ ";" ++ seg)%string) = parseCookies dec (Some r1).
Proof.
  intros Hsc Heq.
  rewrite !parseCookies_segments, segments_app, fold_left_app.
  rewrite (segments_one seg Hsc).
  destruct (String.eqb (trim seg) ""); simpl; [reflexivity|].
  destruct (fold_left _ (segments r1) _); [|reflexivity].
  unfold cookie_step, index_of. now rewrite index_of_aux_none by exact Heq.
Qed.

Lemma parseCookies_skips_bare_segment_witness :
  ~ In ";"%char (chars " flag") /\ ~ In "="%char (chars (trim " flag")) /\
  parseCookies dec_id (Some ("auth=tok" ++ ";" ++ " flag")%string)
    = parseCookies dec_id (Some "auth=tok").
Proof.
  assert (H1 : ~ In ";"%char (chars " flag")) by (simpl; intuition discriminate).
  assert (H2 : ~ In "="%char (chars (trim " flag")))
    by (vm_compute; intuition discriminate).
  split; [exact H1|]. split; [exact H2|].
  apply parseCookies_skips_bare_segment; assumption.
Defined.

End CookieFacts.

Module UserFacts.
Import JsStr Atom Users.

(** What [users.json] keeps when only [register] writes it: distinct
    user names, each accepted by the name pattern. *)
Definition store_ok (users : list User) : Prop :=
  NoDup (map username users) /\
  Forall (fun u => valid_uname (username u) = true) users.

Lemma existsb_name_false (users : list User) (n : string) :
  existsb (fun u => String.eqb (username u) n) users = false ->
  (n ∉ map username users) /\ List.find (fun u => String.eqb (username u) n) users = None.
Proof.
  induction users as [|u users IH]; simpl; intros H.
  - split; [apply not_elem_of_nil | reflexivity].
  - apply orb_false_iff in H as [H1 H2]. destruct (IH H2) as [IH1 IH2].
    rewrite H1, IH2. split; [|reflexivity].
    apply String.eqb_neq in H1. rewrite elem_of_cons. intuition congruence.
Qed.

Lemma find_app {X} (f : X -> bool) (l1 l2 : list X) :
  List.find f (l1 ++ l2) =
  match List.find f l1 with Some x => Some x | None => List.find f l2 end.
Proof.
  induction l1 as [|a l1 IH]; simpl; [reflexivity|].
  destruct (f a); [reflexivity | exact IH].
Qed.

Lemma bytes_eqb_refl (l : list Byte.byte) : bytes_eqb l l = true.
Proof.
  induction l as [|b l IH]; simpl; [reflexivity|].
  now rewrite (Byte.byte_dec_lb eq_refl), IH.
Qed.

(** [/api/auth/register] keeps the user store consistent: user names stay
    distinct and valid, and an answer with an error status leaves
    [users.json] as it was. *)
Theorem register_keeps_store_ok pbkdf2 file q_username q_password
  q_displayName salt now_iso :
  store_ok (readUsers file) ->
  let r := register pbkdf2 file q_username q_password q_displayName salt now_iso in
  store_ok (readUsers (snd r)) /\
  (forall status, fst r = RegError status -> snd r = file).
Proof.
  intros [Hnd Hv] r. unfold r, register. cbv zeta.
  set (uname := toLowerCase (trim (default "" (js_or q_username (Some ""))))).
  destruct (valid_uname uname) eqn:Eu; simpl;
    [|split; [split; assumption | reflexivity]].
  destruct (String.length _ <? 6); simpl; [split; [split; assumption | reflexivity]|].
  destruct (existsb _ (readUsers file)) eqn:Ex; simpl;
    [split; [split; assumption | reflexivity]|].
  split; [|discriminate].
  destruct (existsb_name_false _ _ Ex) as [Hnot _]. split.
  - rewrite map_app. simpl. apply NoDup_app. split; [exact Hnd|]. split.
    + intros y Hy Hy'. apply list_elem_of_singleton in Hy'. subst y. contradiction.
    + apply NoDup_singleton.
  - apply Forall_app. split; [exact Hv|]. constructor; [exact Eu | constructor].
Qed.

Definition pb0 : string -> string -> string :=
  fun password salt => (salt ++ "$" ++ password)%string.
Definition hb0 : string -> list Byte.byte := fun s => map (fun _ => Byte.x00) (chars s).

Lemma register_keeps_store_ok_witness :
  store_ok (readUsers None) /\
  (let r := register pb0 None (Some " Alice") (Some "secret1") None "s1" "t1" in
   store_ok (readUsers (snd r)) /\
   (forall status, fst r = RegError status -> snd r = None)).
Proof.
  assert (H : store_ok (readUsers None)) by (split; constructor).
  split; [exact H | apply register_keeps_store_ok, H].
Defined.

(** After a successful registration, registering a name that trims and
    lower-cases to the same user name (with a password long enough to pass
    the length check) answers 409 and leaves [users.json] as it was. *)
Theorem register_duplicate_rejected pbkdf2 file q_username q_password
  q_displayName salt now_iso user file' q_username' q_password'
  q_displayName' salt' now_iso' :
  register pbkdf2 file q_username q_password q_displayName salt now_iso
    = (Registered user, Some file') ->
  toLowerCase (trim (default "" (js_or q_username' (Some "")))) = username user ->
  6 <= String.length (default "" (js_or q_password' (Some ""))) ->
  register pbkdf2 (Some file') q_username' q_password' q_displayName' salt'
    now_iso' = (RegError 409, Some file').
Proof.
  intros Hreg Hname Hpw. unfold register in Hreg |- *. cbv zeta in Hreg |- *.
  destruct (valid_uname _) eqn:Eu in Hreg; [|discriminate].
  destruct (String.length _ <? 6) in Hreg; [discriminate|].
  destruct (existsb _ (readUsers file)) in Hreg; [discriminate|].
  simpl in Hreg. injection Hreg as <- <-. simpl in Hname. rewrite Hname.
  simpl. rewrite Eu. simpl.
  destruct (String.length _ <? 6) eqn:El; [apply Nat.ltb_lt in El; lia|].
  rewrite existsb_app. simpl. rewrite String.eqb_refl, orb_true_r. reflexivity.
Qed.

Definition alice : User :=
  mkUser "alice" "alice" (pb0 "secret1" "s1") "s1" "t1".

Lemma register_duplicate_rejected_witness :
  register pb0 None (Some " Alice") (Some "secret1") None "s1" "t1"
    = (Registered alice, Some [alice]) /\
  toLowerCase (trim (default "" (js_or (Some "ALICE ") (Some ""))))
    = username alice /\
  6 <= String.length (default "" (js_or (Some "hunter22") (Some ""))) /\
  register pb0 (Some [alice]) (Some "ALICE ") (Some "hunter22") None "s2" "t2"
    = (RegError 409, Some [alice]).
Proof.
  assert (H1 : register pb0 None (Some " Alice") (Some "secret1") None "s1" "t1"
                 = (Registered alice, Some [alice])) by (vm_compute; reflexivity).
  assert (H2 : toLowerCase (trim (default "" (js_or (Some "ALICE ") (Some ""))))
                 = username alice) by (vm_compute; reflexivity).
  assert (H3 : 6 <= String.length (default "" (js_or (Some "hunter22") (Some ""))))
    by (simpl; lia).
  split; [exact H1|]. split; [exact H2|]. split; [exact H3|].
  apply (register_duplicate_rejected pb0 None (Some " Alice") (Some "secret1") None
           "s1" "t1" alice [alice]); assumption.
Defined.

(** Register, then log in: the name and password just registered log in
    as the new user (the salt and the stored hash are non-empty, as the
    hex strings of [crypto] are). *)
Theorem register_then_login pbkdf2 hex_bytes file q_username q_password
  q_displayName salt now_iso user file' :
  register pbkdf2 file q_username q_password q_displayName salt now_iso
    = (Registered user, file') ->
  salt <> "" ->
  pbkdf2 (default "" (js_or q_password (Some ""))) salt <> "" ->
  login pbkdf2 hex_bytes file' q_username q_password = LoggedIn user.
Proof.
  intros Hreg Hs Hh. unfold register in Hreg. cbv zeta in Hreg.
  destruct (valid_uname _) in Hreg; [|discriminate].
  destruct (String.length _ <? 6) in Hreg; [discriminate|].
  destruct (existsb _ (readUsers file)) eqn:Ex in Hreg; [discriminate|].
  simpl in Hreg. injection Hreg as <- <-.
  unfold login. cbv zeta. simpl readUsers.
  rewrite find_app, (proj2 (existsb_name_false _ _ Ex)). simpl.
  rewrite String.eqb_refl.
  unfold verifyPassword. simpl.
  rewrite (proj2 (String.eqb_neq _ _) Hs), (proj2 (String.eqb_neq _ _) Hh).
  simpl. unfold timingSafeEqual. rewrite Nat.eqb_refl, bytes_eqb_refl.
  reflexivity.
Qed.

Lemma register_then_login_witness :
  register pb0 None (Some " Alice") (Some "secret1") None "s1" "t1"
    = (Registered alice, Some [alice]) /\
  "s1" <> "" /\
  pb0 (default "" (js_or (Some "secret1") (Some ""))) "s1" <> "" /\
  login pb0 hb0 (Some [alice]) (Some " Alice") (Some "secret1") = LoggedIn alice.
Proof.
  assert (H1 : register pb0 None (Some " Alice") (Some "secret1") None "s1" "t1"
                 = (Registered alice, Some [alice])) by (vm_compute; reflexivity).
  assert (H2 : "s1" <> "") by discriminate.
  assert (H3 : pb0 (default "" (js_or (Some "secret1") (Some ""))) "s1" <> "")
    by (vm_compute; discriminate).
  split; [exact H1|]. split; [exact H2|]. split; [exact H3|].
  apply (register_then_login pb0 hb0 None (Some " Alice") (Some "secret1") None
           "s1" "t1" alice); assumption.
Defined.

End UserFacts.
